(** * pwhw14: contacts backend -- token lifecycle, user directory, contact store

    A shallow embedding of the Python sources

      - [src/services/authservice.py]   (class [Auth])
      - [src/repository/users_repo.py]
      - [src/repository/contacts_repo.py]
      - [src/routes/users.py]

    and the properties of the written specification that concern them.

    Conventions.
      - A Python function that may raise returns [exn + A]; a function that
        also commits to the database returns the result together with the
        table as it is after the call.
      - Wall-clock time is an explicit argument [now], in whole seconds since
        the epoch (python-jose truncates [exp] and [iat] to whole seconds when
        it encodes a token).
      - The database tables are lists of rows, in storage order.
      - The JWT library (python-jose) and the process settings are not part of
        the repository: they are the fields of the class [AuthEnv], with the
        facts about [jwt.encode]/[jwt.decode] that the proofs rely on. *)

From Stdlib Require Import ZArith Lia Ascii String.
From stdpp Require Import base option list strings gmap sorting.

Local Open Scope string_scope.
Local Open Scope Z_scope.

(** ** Exceptions *)

(** The exceptions that the modelled functions can raise.  [HTTPException]
    is FastAPI's, with its status code, detail and headers. *)
Inductive exn : Type :=
| HTTPException (status_code : Z) (detail : string) (headers : list (string * string))
| AttributeError (msg : string)
| ValueError (msg : string)
| OverflowError (msg : string).

Definition status_of (e : exn) : option Z :=
  match e with HTTPException s _ _ => Some s | _ => None end.

Definition detail_of (e : exn) : option string :=
  match e with HTTPException _ d _ => Some d | _ => None end.

Definition HTTP_401_UNAUTHORIZED : Z := 401.
Definition HTTP_422_UNPROCESSABLE_ENTITY : Z := 422.

(** ** JSON values and JWT claims *)

Inductive json : Type :=
| JNull
| JNum (n : Z)
| JStr (s : string).

#[global] Instance json_eq_dec : EqDecision json.
Proof. solve_decision. Defined.

(** The errors of [jose.jwt.decode]; all are subclasses of [JWTError] and the
    service catches them through that base class. *)
Inductive JWTError : Type :=
| JWTError_malformed
| JWTError_signature
| ExpiredSignatureError
| JWTClaimsError.

(** [payload.get(k) == s] for a string literal [s]. *)
Definition get_is (payload : gmap string json) (k s : string) : bool :=
  bool_decide (payload !! k = Some (JStr s)).

(** [payload.get(k)], where a JSON [null] is Python's [None] as well. *)
Definition get (payload : gmap string json) (k : string) : option json :=
  match payload !! k with
  | Some JNull => None
  | o => o
  end.

(** Registered claims that [jose.jwt.decode] accepts once the signature is
    verified, when it is called with no audience, issuer or subject: [exp] is
    a number that is not before the clock, [iat] and [nbf] are numbers ([nbf]
    not after the clock), [sub], [iss] and [jti] are strings, and there is
    neither [aud] nor [at_hash] (they would need the [audience] and
    [access_token] arguments). *)
Definition claims_valid (now : Z) (c : gmap string json) : bool :=
  match c !! "exp" with
  | Some (JNum e) => now <=? e
  | Some _ => false
  | None => true
  end
  && match c !! "iat" with Some (JNum _) | None => true | Some _ => false end
  && match c !! "nbf" with Some (JNum n) => n <=? now | None => true | Some _ => false end
  && match c !! "sub" with Some (JStr _) | None => true | Some _ => false end
  && match c !! "iss" with Some (JStr _) | None => true | Some _ => false end
  && match c !! "jti" with Some (JStr _) | None => true | Some _ => false end
  && match c !! "aud" with None => true | Some _ => false end
  && match c !! "at_hash" with None => true | Some _ => false end.

(** The environment of the [Auth] service: [settings.secret_key],
    [settings.algorithm] and the two functions of python-jose it calls.
    [jwt_decode now token key algorithms] is [jwt.decode] run when the clock
    shows [now]. *)
Class AuthEnv : Type := {
  SECRET_KEY : string;
  ALGR : string;
  jwt_encode : gmap string json → string → string → string;
  jwt_decode : Z → string → string → list string → JWTError + gmap string json;
  (** a token of our own that decodes, decodes to the claims it was made of *)
  jwt_decode_own : ∀ now c c',
    jwt_decode now (jwt_encode c SECRET_KEY ALGR) SECRET_KEY [ALGR] = inr c' → c' = c;
  (** a token of our own whose registered claims are in order decodes *)
  jwt_decode_valid : ∀ now c,
    claims_valid now c = true →
    jwt_decode now (jwt_encode c SECRET_KEY ALGR) SECRET_KEY [ALGR] = inr c;
  (** a token of our own whose [exp] is before the clock does not *)
  jwt_decode_expired : ∀ now c e,
    c !! "exp" = Some (JNum e) → e < now →
    jwt_decode now (jwt_encode c SECRET_KEY ALGR) SECRET_KEY [ALGR] = inl ExpiredSignatureError;
}.

(** ** Database models *)

Module models.

(** Modelled from the spec: [src/DB/models.py] is not among the sources; the
    columns are those of the spec's data model, with the primary key [id]
    that the repositories use. *)
Record User : Type := mkUser {
  user_pk : Z;
  user_email : string;
  password : string;
  is_activated : bool;
  avatar : option string;
  refresh_token : option string;
  reset_token : option string;
  created_at : Z;
}.

(** A calendar date as [datetime.date] holds it. *)
Record date : Type := mkDate { year : Z; month : Z; day : Z }.

(** Modelled from the spec: the [Contact] row of [src/DB/models.py]. *)
Record Contact : Type := mkContact {
  id : Z;
  first_name : string;
  last_name : string;
  email : string;
  phone : string;
  b_day : date;
  note : option string;
  user_id : Z;
}.

#[global] Instance date_eq_dec : EqDecision date.
Proof. solve_decision. Defined.
#[global] Instance User_eq_dec : EqDecision User.
Proof. solve_decision. Defined.
#[global] Instance Contact_eq_dec : EqDecision Contact.
Proof. solve_decision. Defined.

End models.
Import models.

(** ** [src/repository/users_repo.py] *)

Module users_repo.

(** [select(User).where(User.email == email)], then [result.scalar()]: the
    first row that matches, or [None]. *)
Definition repo_user_authentication_by_email (email : string) (db : list User)
  : option User :=
  List.find (λ u, bool_decide (user_email u = email)) db.

(** The session writes an attribute change back to the row the object was
    loaded from: the first row with that e-mail. *)
Fixpoint commit_user (email : string) (f : User → User) (db : list User) : list User :=
  match db with
  | [] => []
  | u :: rest =>
      if bool_decide (user_email u = email) then f u :: rest
      else u :: commit_user email f rest
  end.

Definition set_is_activated (b : bool) (u : User) : User :=
  mkUser (user_pk u) (user_email u) (password u) b (avatar u)
         (refresh_token u) (reset_token u) (created_at u).

Definition set_avatar (a : option string) (u : User) : User :=
  mkUser (user_pk u) (user_email u) (password u) (is_activated u) a
         (refresh_token u) (reset_token u) (created_at u).

Definition set_refresh_token (t : option string) (u : User) : User :=
  mkUser (user_pk u) (user_email u) (password u) (is_activated u) (avatar u)
         t (reset_token u) (created_at u).

Definition set_reset_token (t : option string) (u : User) : User :=
  mkUser (user_pk u) (user_email u) (password u) (is_activated u) (avatar u)
         (refresh_token u) t (created_at u).

(** [user.refresh_token = new_refresh_token; await db.commit()] *)
Definition repo_update_refresh_token (user : User) (new_refresh_token : string)
    (db : list User) : (exn + unit) * list User :=
  (inr tt, commit_user (user_email user) (set_refresh_token (Some new_refresh_token)) db).

(** [user = await repo_user_authentication_by_email(...)]
    [user.is_activated = True]      -- on [None] this raises [AttributeError]
    [await db.commit()] *)
Definition confirmed_email (email : string) (db : list User)
  : (exn + unit) * list User :=
  match repo_user_authentication_by_email email db with
  | None =>
      (inl (AttributeError "'NoneType' object has no attribute 'is_activated'"), db)
  | Some user =>
      (inr tt, commit_user (user_email user) (set_is_activated true) db)
  end.

(** [user.avatar = src_url; await db.commit(); return user] *)
Definition update_avatar (email src_url : string) (db : list User)
  : (exn + User) * list User :=
  match repo_user_authentication_by_email email db with
  | None =>
      (inl (AttributeError "'NoneType' object has no attribute 'avatar'"), db)
  | Some user =>
      (inr (set_avatar (Some src_url) user),
       commit_user (user_email user) (set_avatar (Some src_url)) db)
  end.

(** [user.reset_token = reset_token; await db.commit()] *)
Definition add_reset_token_to_db (user : User) (reset_token : string)
    (db : list User) : (exn + unit) * list User :=
  (inr tt, commit_user (user_email user) (set_reset_token (Some reset_token)) db).

End users_repo.

(** ** [src/services/authservice.py] *)

Module authservice.
Section Auth.
Context `{AuthEnv}.

(** [if expires_delta: ... else: ...] -- [None] and [0] take the default.
    The lifetime is in whole seconds, and the sum is the value of
    [utcnow() + timedelta(...)] when that is a [datetime]: outside the range
    of [datetime] the source raises [OverflowError] instead, which is
    [timestamps.add_seconds]; the statements that need the token to exist
    ask for [timestamps.datetime_in_range]. *)
Definition expiry (now : Z) (expires_delta : option Z) (default : Z) : Z :=
  match expires_delta with
  | Some d => if bool_decide (d = 0) then now + default else now + d
  | None => now + default
  end.

(** [to_encode.update({"iat": ..., "exp": ..., "scope": ...})] *)
Definition update_claims (to_encode : gmap string json) (iat exp : Z) (scope : string)
  : gmap string json :=
  <["scope" := JStr scope]> (<["exp" := JNum exp]> (<["iat" := JNum iat]> to_encode)).

(** The token that [create_access_token] returns when the expiry is a
    [datetime]; [issuing.try_create_access_token] has the [OverflowError]. *)
Definition create_access_token (now : Z) (data : gmap string json)
    (expires_delta : option Z) : string :=
  let to_encode := data in
  let expires := expiry now expires_delta (15 * 60) in
  let to_encode := update_claims to_encode now expires "access_token" in
  jwt_encode to_encode SECRET_KEY ALGR.

(** Likewise for [create_refresh_token] and
    [issuing.try_create_refresh_token]. *)
Definition create_refresh_token (now : Z) (data : gmap string json)
    (expires_delta : option Z) : string :=
  let to_encode := data in
  let expires := expiry now expires_delta (7 * 24 * 60 * 60) in
  let to_encode := update_claims to_encode now expires "access_token" in
  jwt_encode to_encode SECRET_KEY ALGR.

Definition credentials_exception : exn :=
  HTTPException HTTP_401_UNAUTHORIZED "Could not validate credentials"
                [("WWW-Authenticate", "Bearer")].

(** The [try] block of [get_current_user] (lines 131-139): the subject of
    an access token. *)
Definition get_current_user_email (now : Z) (token : string) : exn + json :=
  match jwt_decode now token SECRET_KEY [ALGR] with
  | inr payload =>
      if negb (get_is payload "scope" "access_token") then inl credentials_exception
      else match get payload "sub" with
           | None => inl credentials_exception
           | Some email => inr email
           end
  | inl _ => inl credentials_exception
  end.

(** [get_current_user]: the [try] block, then the lookup of the user.  A
    subject that is not a string equals no stored e-mail. *)
Definition get_current_user (now : Z) (token : string) (db : list User) : exn + User :=
  match get_current_user_email now token with
  | inl e => inl e
  | inr email =>
      let user := match email with
                  | JStr s => users_repo.repo_user_authentication_by_email s db
                  | _ => None
                  end in
      match user with
      | None => inl credentials_exception
      | Some user => inr user
      end
  end.

Definition create_email_token (now : Z) (data : gmap string json) : string :=
  let to_encode := data in
  let expire := now + 1 * 60 * 60 in
  let to_encode := update_claims to_encode now expire "email_token" in
  jwt_encode to_encode SECRET_KEY ALGR.

Definition decode_refresh_token (now : Z) (refresh_token : string) : exn + option json :=
  match jwt_decode now refresh_token SECRET_KEY [ALGR] with
  | inr payload =>
      if get_is payload "scope" "refresh_token" then
        let email := get payload "sub" in
        inr email
      else inl (HTTPException HTTP_401_UNAUTHORIZED "Invalid token scope" [])
  | inl _ =>
      inl (HTTPException HTTP_401_UNAUTHORIZED "Could not validate credentials" [])
  end.

(** Falling off the end of the [try] block returns [None]. *)
Definition get_email_from_token (now : Z) (token : string) : exn + option json :=
  match jwt_decode now token SECRET_KEY [ALGR] with
  | inr payload =>
      if get_is payload "scope" "email_token" then
        let email := get payload "sub" in
        inr email
      else inr None
  | inl _ =>
      inl (HTTPException HTTP_422_UNPROCESSABLE_ENTITY
                         "Invalid token for email confirmation." [])
  end.

(** [expire] is in hours, [1] by default.  The value when
    [utcnow() + timedelta(hours=expire)] is a [datetime]; see
    [issuing.try_create_reset_token] for the [OverflowError]. *)
Definition create_reset_token (now : Z) (data : gmap string json) (expire : Z) : string :=
  let to_encode := data in
  let expire := now + expire * 60 * 60 in
  let to_encode := update_claims to_encode now expire "refresh" in
  jwt_encode to_encode SECRET_KEY ALGR.

Definition get_email_from_reset_token (now : Z) (token : string) : exn + option json :=
  match jwt_decode now token SECRET_KEY [ALGR] with
  | inr payload =>
      if get_is payload "scope" "refresh" then
        let email := get payload "sub" in
        inr email
      else inr None
  | inl _ =>
      inl (HTTPException HTTP_422_UNPROCESSABLE_ENTITY
                         "Invalid token for password reset." [])
  end.

End Auth.
End authservice.

(** ** Calendar dates ([datetime.date] of the Python standard library) *)

Module datetime.

Definition MINYEAR : Z := 1.
Definition MAXYEAR : Z := 9999.

Definition _is_leap (y : Z) : bool :=
  (y mod 4 =? 0) && (negb (y mod 100 =? 0) || (y mod 400 =? 0)).

Definition _DAYS_IN_MONTH (m : Z) : Z :=
  match m with
  | 1 => 31 | 2 => 28 | 3 => 31 | 4 => 30 | 5 => 31 | 6 => 30
  | 7 => 31 | 8 => 31 | 9 => 30 | 10 => 31 | 11 => 30 | 12 => 31
  | _ => -1
  end.

Definition _DAYS_BEFORE_MONTH (m : Z) : Z :=
  match m with
  | 1 => 0 | 2 => 31 | 3 => 59 | 4 => 90 | 5 => 120 | 6 => 151
  | 7 => 181 | 8 => 212 | 9 => 243 | 10 => 273 | 11 => 304 | 12 => 334
  | _ => -1
  end.

Definition _days_in_month (y m : Z) : Z :=
  if (m =? 2) && _is_leap y then 29 else _DAYS_IN_MONTH m.

Definition _days_before_year (year : Z) : Z :=
  let y := year - 1 in y * 365 + y / 4 - y / 100 + y / 400.

Definition _days_before_month (y m : Z) : Z :=
  _DAYS_BEFORE_MONTH m + (if (2 <? m) && _is_leap y then 1 else 0).

Definition _ymd2ord (y m d : Z) : Z :=
  _days_before_year y + _days_before_month y m + d.

Definition _DI400Y : Z := 146097.
Definition _DI100Y : Z := 36524.
Definition _DI4Y : Z := 1461.
Definition _MAXORDINAL : Z := 3652059.

Definition _ord2ymd (n : Z) : date :=
  let n := n - 1 in
  let n400 := n / _DI400Y in let n := n mod _DI400Y in
  let year := n400 * 400 + 1 in
  let n100 := n / _DI100Y in let n := n mod _DI100Y in
  let n4 := n / _DI4Y in let n := n mod _DI4Y in
  let n1 := n / 365 in let n := n mod 365 in
  let year := year + n100 * 100 + n4 * 4 + n1 in
  if (n1 =? 4) || (n100 =? 4) then mkDate (year - 1) 12 31
  else
    let leapyear := (n1 =? 3) && (negb (n4 =? 24) || (n100 =? 3)) in
    let month := Z.shiftr (n + 50) 5 in
    let preceding := _DAYS_BEFORE_MONTH month
                     + (if (2 <? month) && leapyear then 1 else 0) in
    if n <? preceding then
      let month := month - 1 in
      let preceding := preceding
                       - (_DAYS_IN_MONTH month
                          + (if (month =? 2) && leapyear then 1 else 0)) in
      mkDate year month (n - preceding + 1)
    else mkDate year month (n - preceding + 1).

(** [datetime.datetime(year, month, day).date()]: the constructor checks
    its fields and raises [ValueError] on a day the month does not have. *)
Definition new_date (y m d : Z) : exn + date :=
  if negb ((MINYEAR <=? y) && (y <=? MAXYEAR)) then
    inl (ValueError "year is out of range")
  else if negb ((1 <=? m) && (m <=? 12)) then
    inl (ValueError "month must be in 1..12")
  else if negb ((1 <=? d) && (d <=? _days_in_month y m)) then
    inl (ValueError "day is out of range for month")
  else inr (mkDate y m d).

Definition toordinal (d : date) : Z := _ymd2ord (year d) (month d) (day d).

(** [d + datetime.timedelta(days=n)] *)
Definition add_days (d : date) (n : Z) : exn + date :=
  let o := toordinal d + n in
  if (0 <? o) && (o <=? _MAXORDINAL) then inr (_ord2ymd o)
  else inl (OverflowError "date value out of range").

(** [a <= b] on dates: the comparison of [(year, month, day)]. *)
Definition date_le (a b : date) : bool :=
  (year a <? year b)
  || ((year a =? year b)
      && ((month a <? month b)
          || ((month a =? month b) && (day a <=? day b)))).

End datetime.

(** ** SQL [LIKE] and [lower] *)

Module sql.

(** [lower] on the ASCII letters.  On ASCII text ([text.ascii_only]) this is
    what Python's [str.lower] and the database's [lower()] compute; other
    characters are outside this model, and the statements about the search
    ask for ASCII text. *)
Definition lower_char (c : ascii) : ascii :=
  let n := N_of_ascii c in
  if ((65 <=? n) && (n <=? 90))%N then ascii_of_N (n + 32) else c.

Fixpoint lower (s : string) : string :=
  match s with
  | EmptyString => EmptyString
  | String c r => String (lower_char c) (lower r)
  end.

(** [s LIKE p] with no [ESCAPE] clause: [%] stands for any run of
    characters, [_] for any one character, every other character for
    itself.  A character is one [ascii] here, which is right on ASCII text
    ([text.ascii_only]) only. *)
Fixpoint like (p s : string) {struct p} : bool :=
  match p with
  | EmptyString => match s with EmptyString => true | _ => false end
  | String "%"%char p' =>
      (fix any (s : string) : bool :=
         like p' s
         || match s with
            | EmptyString => false
            | String _ s' => any s'
            end) s
  | String "_"%char p' =>
      match s with EmptyString => false | String _ s' => like p' s' end
  | String c p' =>
      match s with
      | EmptyString => false
      | String d s' => bool_decide (c = d) && like p' s'
      end
  end.

(** The characters of a pattern that [LIKE] reads as themselves whatever
    the backend: neither wildcard, nor the backslash that some backends
    take as the default escape. *)
Definition literal_char (c : ascii) : bool :=
  negb (bool_decide (c = "%"%char) || bool_decide (c = "_"%char)
        || bool_decide (c = "\"%char)).

Fixpoint literal (s : string) : bool :=
  match s with
  | EmptyString => true
  | String c r => literal_char c && literal r
  end.

(** [needle in s] *)
Fixpoint prefix (p s : string) : bool :=
  match p, s with
  | EmptyString, _ => true
  | String c p', String d s' => bool_decide (c = d) && prefix p' s'
  | String _ _, EmptyString => false
  end.

Fixpoint substring (needle s : string) : bool :=
  prefix needle s
  || match s with
     | EmptyString => false
     | String _ s' => substring needle s'
     end.

End sql.

(** ** [src/repository/contacts_repo.py] *)

Module contacts_repo.

(** Modelled from the spec: [ContactUpdate] of [src/schemas] is not among
    the sources.  A field is [None] when the request did not set it
    ([exclude_unset=True] then leaves it out). *)
Record ContactUpdate : Type := mkContactUpdate {
  upd_first_name : option string;
  upd_last_name : option string;
  upd_email : option string;
  upd_phone : option string;
  upd_b_day : option date;
  upd_note : option (option string);
}.

Definition owned_with_id (cid : Z) (user : User) (c : Contact) : bool :=
  bool_decide (user_id c = user_pk user) && bool_decide (id c = cid).

(** [select(Contact).where(Contact.user_id == user.id).filter(Contact.id == id)],
    then [scalar()]. *)
Definition get_specific_contact_belongs_to_user (cid : Z) (user : User)
    (db : list Contact) : option Contact :=
  List.find (owned_with_id cid user) db.

Definition id_le (a b : Contact) : Prop := id a ≤ id b.

#[global] Instance id_le_dec : RelDecision id_le.
Proof. intros a b. unfold id_le. apply _. Defined.

(** [.where(cond).offset(offset).limit(limit).order_by(asc(Contact.id))]:
    the rows that satisfy [cond], by ascending id, without the first
    [offset], at most [limit] of them. *)
Definition select_page (cond : Contact → bool) (limit offset : nat)
    (db : list Contact) : list Contact :=
  take limit (drop offset (merge_sort id_le (List.filter cond db))).

Definition repo_get_contacts (db : list Contact) (user : User) (limit offset : nat)
  : list Contact :=
  select_page (λ c, bool_decide (user_id c = user_pk user)) limit offset db.

Definition not_found : exn := HTTPException 404 "Contact not found" [].

Definition repo_get_contact_by_id (cid : Z) (user : User) (db : list Contact)
  : exn + Contact :=
  match get_specific_contact_belongs_to_user cid user db with
  | None => inl not_found
  | Some contact => inr contact
  end.

(** [for field, value in body.dict(exclude_unset=True).items():]
    [    setattr(contact, field, value)] *)
Definition apply_update (body : ContactUpdate) (c : Contact) : Contact :=
  mkContact (id c)
    (default (first_name c) (upd_first_name body))
    (default (last_name c) (upd_last_name body))
    (default (email c) (upd_email body))
    (default (phone c) (upd_phone body))
    (default (b_day c) (upd_b_day body))
    (default (note c) (upd_note body))
    (user_id c).

(** The row of [contact] in the table, rewritten or removed at commit. *)
Fixpoint commit_contact (cid : Z) (user : User) (f : Contact → option Contact)
    (db : list Contact) : list Contact :=
  match db with
  | [] => []
  | c :: rest =>
      if owned_with_id cid user c then
        match f c with Some c' => c' :: rest | None => rest end
      else c :: commit_contact cid user f rest
  end.

Definition repo_update_contact_db (cid : Z) (user : User) (body : ContactUpdate)
    (db : list Contact) : (exn + Contact) * list Contact :=
  match get_specific_contact_belongs_to_user cid user db with
  | None => (inl not_found, db)
  | Some contact =>
      let contact := apply_update body contact in
      (inr contact, commit_contact cid user (λ c, Some (apply_update body c)) db)
  end.

Definition repo_delete_contact_db (cid : Z) (user : User) (db : list Contact)
  : (exn + string) * list Contact :=
  match get_specific_contact_belongs_to_user cid user db with
  | None => (inl not_found, db)
  | Some contact =>
      let contact_name := (first_name contact ++ " " ++ last_name contact)%string in
      (inr ("Contact '" ++ contact_name ++ "' successfully deleted")%string,
       commit_contact cid user (λ _, None) db)
  end.

Definition matches_query (user : User) (lower_search_query : string) (c : Contact)
  : bool :=
  bool_decide (user_id c = user_pk user)
  && (sql.like lower_search_query (sql.lower (first_name c))
      || sql.like lower_search_query (sql.lower (last_name c))
      || sql.like lower_search_query (sql.lower (email c))).

Definition repo_get_contacts_query (user : User) (query : string)
    (limit offset : nat) (db : list Contact) : list Contact :=
  let search_query := ("%" ++ query ++ "%")%string in
  let lower_search_query := sql.lower search_query in
  select_page (matches_query user lower_search_query) limit offset db.

(** The loop of [repo_get_upcoming_birthday_contacts]. *)
Fixpoint birthday_loop (today end_date : date) (contacts answer_contacts : list Contact)
  : exn + list Contact :=
  match contacts with
  | [] => inr answer_contacts
  | contact :: rest =>
      let b_day := b_day contact in
      match datetime.new_date (year today) (month b_day) (day b_day) with
      | inl e => inl e
      | inr today_year_b_day =>
          if datetime.date_le today today_year_b_day
             && datetime.date_le today_year_b_day end_date
          then birthday_loop today end_date rest (answer_contacts ++ [contact])
          else birthday_loop today end_date rest answer_contacts
      end
  end.

(** [today] is [datetime.datetime.now().date()]. *)
Definition repo_get_upcoming_birthday_contacts (today : date) (user : User)
    (db : list Contact) : exn + list Contact :=
  match datetime.add_days today 7 with
  | inl e => inl e
  | inr end_date =>
      let answer_contacts := [] in
      let contacts := List.filter (λ c, bool_decide (user_id c = user_pk user)) db in
      birthday_loop today end_date contacts answer_contacts
  end.

End contacts_repo.

(** ** Vocabulary of the statements *)

Module vocabulary.

(** The payload that the callers pass to the issuers: [{"sub": email}]. *)
Definition sub_claim (subject : string) : gmap string json :=
  {[ "sub" := JStr subject ]}.

(** The contact with a given id is missing from the table. *)
Definition absent (cid : Z) (db : list Contact) : Prop :=
  ∀ c, c ∈ db → id c ≠ cid.

(** The contact with a given id is in the table and belongs to somebody
    other than [user]. *)
Definition owned_by_other (cid : Z) (user : User) (db : list Contact) : Prop :=
  ∃ c, c ∈ db ∧ id c = cid ∧ user_id c ≠ user_pk user.

(** [Contact.id] is the primary key of the table. *)
Definition primary_key (db : list Contact) : Prop := NoDup (id <$> db).

(** The columns that the search looks at. *)
Definition searched_fields (c : Contact) : list string :=
  [first_name c; last_name c; email c].

End vocabulary.

(** ** A reference codec

    A small signed-token codec over strings, with the observable behaviour of
    [jwt.encode]/[jwt.decode] that [AuthEnv] asks for.  It gives the
    environment an inhabitant, so that every statement below can be run on
    actual tokens. *)

Module refjwt.

(** A string, self-delimited: every character after a [+], then a [.]. *)
Fixpoint write_str (s : string) : string :=
  match s with
  | EmptyString => "."
  | String c r => String "+" (String c (write_str r))
  end.

Fixpoint read_str (inp : string) : option (string * string) :=
  match inp with
  | String "." rest => Some (EmptyString, rest)
  | String "+" (String c rest) =>
      match read_str rest with
      | Some (s, rest') => Some (String c s, rest')
      | None => None
      end
  | _ => None
  end.

Fixpoint pos_bits (p : positive) : string :=
  match p with
  | xH => ""
  | xO p => String "0" (pos_bits p)
  | xI p => String "1" (pos_bits p)
  end.

Fixpoint bits_pos (s : string) : positive :=
  match s with
  | String "0" r => xO (bits_pos r)
  | String "1" r => xI (bits_pos r)
  | _ => xH
  end.

Definition Z_bits (z : Z) : string :=
  match z with
  | Z0 => "z"
  | Zpos p => String "p" (pos_bits p)
  | Zneg p => String "n" (pos_bits p)
  end.

Definition bits_Z (s : string) : option Z :=
  match s with
  | String "z" EmptyString => Some Z0
  | String "p" r => Some (Zpos (bits_pos r))
  | String "n" r => Some (Zneg (bits_pos r))
  | _ => None
  end.

Definition write_json (v : json) : string :=
  match v with
  | JNull => "N"
  | JNum n => String "I" (write_str (Z_bits n))
  | JStr s => String "S" (write_str s)
  end.

Definition read_json (inp : string) : option (json * string) :=
  match inp with
  | String "N" rest => Some (JNull, rest)
  | String "I" rest =>
      match read_str rest with
      | Some (b, rest') =>
          match bits_Z b with Some n => Some (JNum n, rest') | None => None end
      | None => None
      end
  | String "S" rest =>
      match read_str rest with
      | Some (s, rest') => Some (JStr s, rest')
      | None => None
      end
  | _ => None
  end.

Fixpoint write_entries (l : list (string * json)) : string :=
  match l with
  | [] => "$"
  | (k, v) :: r => String "E" (write_str k +:+ write_json v +:+ write_entries r)
  end.

Fixpoint read_entries (fuel : nat) (inp : string) : option (list (string * json)) :=
  match fuel with
  | O => None
  | S fuel =>
      match inp with
      | String "$" EmptyString => Some []
      | String "E" rest =>
          match read_str rest with
          | Some (k, rest1) =>
              match read_json rest1 with
              | Some (v, rest2) =>
                  match read_entries fuel rest2 with
                  | Some l => Some ((k, v) :: l)
                  | None => None
                  end
              | None => None
              end
          | None => None
          end
      | _ => None
      end
  end.

(** The tag that binds a body to the key and the algorithm. *)
Definition mac (key alg body : string) : string := key +:+ alg +:+ body.

Definition ref_encode (claims : gmap string json) (key alg : string) : string :=
  let body := write_entries (map_to_list claims) in
  write_str (mac key alg body) +:+ body.

Definition validate (now : Z) (c : gmap string json) : JWTError + gmap string json :=
  match c !! "exp" with
  | Some (JNum e) =>
      if e <? now then inl ExpiredSignatureError
      else if claims_valid now c then inr c else inl JWTClaimsError
  | _ => if claims_valid now c then inr c else inl JWTClaimsError
  end.

Definition ref_decode (now : Z) (token key : string) (algorithms : list string)
  : JWTError + gmap string json :=
  match read_str token with
  | None => inl JWTError_malformed
  | Some (tag, body) =>
      if existsb (λ alg, bool_decide (tag = mac key alg body)) algorithms then
        match read_entries (S (String.length body)) body with
        | Some l => validate now (list_to_map l)
        | None => inl JWTError_malformed
        end
      else inl JWTError_signature
  end.

End refjwt.

(** ** Creation and the routes of [src/routes/users.py] *)

Module creation.

(** Modelled from the spec: [UserCreate] of [src/schemas] is not among the
    sources; the fields are the columns a registration supplies. *)
Record UserCreate : Type := mkUserCreate {
  new_email : string;
  new_password : string;
}.

(** Modelled from the spec: [ContactCreate] of [src/schemas]. *)
Record ContactCreate : Type := mkContactCreate {
  cc_first_name : string;
  cc_last_name : string;
  cc_email : string;
  cc_phone : string;
  cc_b_day : date;
  cc_note : option string;
}.

(** [repo_create_new_contact]: a [Contact] of the fields of [body] with
    [user_id=user.id], added, flushed and committed; [new_id] is the key that the database
    gives the row. *)
Definition repo_create_new_contact (new_id : Z) (user : User) (body : ContactCreate)
    (db : list Contact) : (exn + Contact) * list Contact :=
  let contact := mkContact new_id (cc_first_name body) (cc_last_name body)
                           (cc_email body) (cc_phone body) (cc_b_day body)
                           (cc_note body) (user_pk user) in
  (inr contact, (db ++ [contact])%list).

Section with_auth.
Context `{AuthEnv}.

(** [repo_create_user].  [get_image] is [Gravatar(email).get_image()] and
    [new_pk] the key that the database gives the row; the activation flag
    takes its default.  The constraints of the table itself are not part of
    the function: the caller looks the e-mail up first. *)
Definition repo_create_user (get_image : string → string) (new_pk now : Z)
    (body : UserCreate) (db : list User) : (exn + User) * list User :=
  let avatar_img_url := get_image (new_email body) in
  let refresh_token :=
    authservice.create_refresh_token now (vocabulary.sub_claim (new_email body)) None in
  let user := mkUser new_pk (new_email body) (new_password body) false
                     (Some avatar_img_url) (Some refresh_token) None now in
  (inr user, (db ++ [user])%list).

(** [GET /me]: the dependency [get_current_user], returned as it is. *)
Definition get_my_info (now : Z) (token : string) (db : list User) : exn + User :=
  match authservice.get_current_user now token db with
  | inl e => inl e
  | inr current_user => inr current_user
  end.

(** [PATCH /avatar].  [upload] stands for the three calls to [UploadImage]
    (name from the e-mail, upload, URL), which may raise. *)
Definition update_user_avatar (upload : string → exn + string) (now : Z)
    (token : string) (db : list User) : (exn + User) * list User :=
  match authservice.get_current_user now token db with
  | inl e => (inl e, db)
  | inr current_user =>
      match upload (user_email current_user) with
      | inl e => (inl e, db)
      | inr src_url => users_repo.update_avatar (user_email current_user) src_url db
      end
  end.

End with_auth.
End creation.

(** The window test of the birthday loop: the birthday, moved to the year of
    [today], lies between [today] and [end_date]. *)
Definition in_window (today end_date : date) (c : Contact) : bool :=
  let d := mkDate (year today) (month (b_day c)) (day (b_day c)) in
  datetime.date_le today d && datetime.date_le d end_date.

(** A calendar date that [datetime.date] can hold. *)
Definition valid_date (d : date) : Prop :=
  datetime.MINYEAR ≤ year d ≤ datetime.MAXYEAR
  ∧ 1 ≤ month d ≤ 12
  ∧ 1 ≤ day d ≤ datetime._days_in_month (year d) (month d).

(** ** The range of [datetime] and the issuers that can raise *)

Module timestamps.

(** The first and the last second that a [datetime] holds, as seconds since
    the epoch: 0001-01-01 00:00:00 and 9999-12-31 23:59:59. *)
Definition MIN_TIMESTAMP : Z :=
  (datetime._ymd2ord 1 1 1 - datetime._ymd2ord 1970 1 1) * 86400.
Definition MAX_TIMESTAMP : Z :=
  (datetime._MAXORDINAL - datetime._ymd2ord 1970 1 1) * 86400 + 86399.

Definition datetime_in_range (t : Z) : Prop := MIN_TIMESTAMP ≤ t ≤ MAX_TIMESTAMP.

#[global] Instance datetime_in_range_dec (t : Z) : Decision (datetime_in_range t).
Proof. unfold datetime_in_range. apply _. Defined.

(** [timedelta(seconds=d)] holds at most 999999999 days either way. *)
Definition timedelta_in_range (d : Z) : Prop :=
  -999999999 ≤ d / 86400 ≤ 999999999.

#[global] Instance timedelta_in_range_dec (d : Z) : Decision (timedelta_in_range d).
Proof. unfold timedelta_in_range. apply _. Defined.

(** [datetime.utcnow() + timedelta(seconds=d)], in whole seconds: both the
    [timedelta] and the sum raise [OverflowError] outside their range. *)
Definition add_seconds (now d : Z) : exn + Z :=
  if bool_decide (timedelta_in_range d) then
    if bool_decide (datetime_in_range (now + d)) then inr (now + d)
    else inl (OverflowError "date value out of range")
  else inl (OverflowError "days out of range for timedelta").

End timestamps.

Module issuing.
Import timestamps.
Section with_auth.
Context `{AuthEnv}.

(** [create_access_token] with the [OverflowError] of line 73: the lifetime
    is added to the clock before anything is signed. *)
Definition try_create_access_token (now : Z) (data : gmap string json)
    (expires_delta : option Z) : exn + string :=
  let lifetime := match expires_delta with
                  | Some d => if bool_decide (d = 0) then 15 * 60 else d
                  | None => 15 * 60
                  end in
  match add_seconds now lifetime with
  | inl e => inl e
  | inr expires =>
      inr (jwt_encode (authservice.update_claims data now expires "access_token")
                      SECRET_KEY ALGR)
  end.

(** [create_refresh_token] with the [OverflowError] of line 99. *)
Definition try_create_refresh_token (now : Z) (data : gmap string json)
    (expires_delta : option Z) : exn + string :=
  let lifetime := match expires_delta with
                  | Some d => if bool_decide (d = 0) then 7 * 24 * 60 * 60 else d
                  | None => 7 * 24 * 60 * 60
                  end in
  match add_seconds now lifetime with
  | inl e => inl e
  | inr expires =>
      inr (jwt_encode (authservice.update_claims data now expires "access_token")
                      SECRET_KEY ALGR)
  end.

(** [create_reset_token] with the [OverflowError] of line 230;
    [timedelta(hours=expire)]. *)
Definition try_create_reset_token (now : Z) (data : gmap string json) (expire : Z)
  : exn + string :=
  match add_seconds now (expire * 60 * 60) with
  | inl e => inl e
  | inr expires =>
      inr (jwt_encode (authservice.update_claims data now expires "refresh")
                      SECRET_KEY ALGR)
  end.

End with_auth.
End issuing.

(** ** ASCII text *)

Module text.

Definition ascii_char (c : ascii) : bool := (N_of_ascii c <? 128)%N.

(** The strings on which a byte is a character, and on which [sql.lower] is
    what Python's [str.lower] and the database's [lower] compute. *)
Fixpoint ascii_only (s : string) : bool :=
  match s with
  | EmptyString => true
  | String c r => ascii_char c && ascii_only r
  end.

End text.

(** * Properties *)

(** ** The reference codec satisfies [AuthEnv] *)

Module string_facts.

Lemma sapp_cons (c : ascii) (r s : string) : String c r +:+ s = String c (r +:+ s).
Proof. reflexivity. Qed.

Lemma sapp_empty (s : string) : "" +:+ s = s.
Proof. reflexivity. Qed.

Lemma sapp_assoc (a b c : string) : (a +:+ b) +:+ c = a +:+ (b +:+ c).
Proof. induction a as [|x a IH]; [done|]. by rewrite !sapp_cons, IH. Qed.

Lemma length_sapp_ge (a b : string) : (String.length b ≤ String.length (a +:+ b))%nat.
Proof. induction a as [|x a IH]; [done|]. rewrite sapp_cons. simpl. lia. Qed.

End string_facts.

Module refjwt_facts.
Import refjwt string_facts.

Lemma read_write_str (s rest : string) :
  read_str (write_str s +:+ rest) = Some (s, rest).
Proof.
  induction s as [|c s IH]; [done|].
  cbn [write_str]. rewrite !sapp_cons. cbn [read_str]. by rewrite IH.
Qed.

Lemma bits_pos_bits (p : positive) : bits_pos (pos_bits p) = p.
Proof. induction p as [p IH|p IH|]; cbn; by rewrite ?IH. Qed.

Lemma bits_Z_bits (z : Z) : bits_Z (Z_bits z) = Some z.
Proof.
  destruct z as [|p|p]; [done| |]; cbn.
  - by rewrite bits_pos_bits.
  - by rewrite bits_pos_bits.
Qed.

Lemma read_write_json (v : json) (rest : string) :
  read_json (write_json v +:+ rest) = Some (v, rest).
Proof.
  destruct v as [|n|s]; cbn [write_json]; rewrite ?sapp_cons; cbn [read_json].
  - by rewrite sapp_empty.
  - by rewrite read_write_str, bits_Z_bits.
  - by rewrite read_write_str.
Qed.

Lemma read_write_entries (l : list (string * json)) (fuel : nat) :
  (length l < fuel)%nat → read_entries fuel (write_entries l) = Some l.
Proof.
  revert fuel. induction l as [|[k v] l IH]; intros [|fuel] Hf; simpl in Hf; try lia.
  - done.
  - cbn [write_entries read_entries].
    rewrite read_write_str, read_write_json, IH by lia. done.
Qed.

Lemma length_write_entries (l : list (string * json)) :
  (length l < String.length (write_entries l))%nat.
Proof.
  induction l as [|[k v] l IH]; cbn [write_entries]; simpl; [lia|].
  pose proof (length_sapp_ge (write_json v) (write_entries l)).
  pose proof (length_sapp_ge (write_str k) (write_json v +:+ write_entries l)).
  lia.
Qed.

Lemma decode_encode (now : Z) (c : gmap string json) (key alg : string) :
  ref_decode now (ref_encode c key alg) key [alg] = validate now c.
Proof.
  unfold ref_decode, ref_encode. rewrite read_write_str. cbn [existsb].
  rewrite bool_decide_eq_true_2 by done. cbn [orb].
  rewrite read_write_entries by (pose proof (length_write_entries (map_to_list c)); lia).
  by rewrite list_to_map_to_list.
Qed.

Lemma validate_inr (now : Z) (c c' : gmap string json) :
  validate now c = inr c' → c' = c.
Proof.
  unfold validate. intros Hv.
  repeat match type of Hv with
         | context [match ?x with _ => _ end] => destruct x
         end; congruence.
Qed.

Lemma validate_valid (now : Z) (c : gmap string json) :
  claims_valid now c = true → validate now c = inr c.
Proof.
  unfold validate. intros Hv. rewrite Hv.
  destruct (c !! "exp") as [[|e|]|] eqn:He; try done.
  destruct (Z.ltb_spec e now) as [Hlt|]; [|done].
  unfold claims_valid in Hv. rewrite He in Hv.
  rewrite !andb_true_iff in Hv. destruct Hv as [[[[[[[Hexp _] _] _] _] _] _] _].
  apply Z.leb_le in Hexp. lia.
Qed.

Lemma validate_expired (now : Z) (c : gmap string json) (e : Z) :
  c !! "exp" = Some (JNum e) → e < now → validate now c = inl ExpiredSignatureError.
Proof.
  unfold validate. intros -> Hlt. by rewrite (proj2 (Z.ltb_lt e now) Hlt).
Qed.

End refjwt_facts.

(** The reference environment: a fixed key and algorithm name with the
    reference codec. *)
#[local] Instance ref_env : AuthEnv.
Proof.
  refine {| SECRET_KEY := "secret";
            ALGR := "HS256";
            jwt_encode := refjwt.ref_encode;
            jwt_decode := refjwt.ref_decode |}.
  - intros now c c'. rewrite refjwt_facts.decode_encode.
    apply refjwt_facts.validate_inr.
  - intros now c Hv. rewrite refjwt_facts.decode_encode.
    by apply refjwt_facts.validate_valid.
  - intros now c e He Hlt. rewrite refjwt_facts.decode_encode.
    by apply refjwt_facts.validate_expired with e.
Defined.

(** ** Sample data *)

Module samples.
Import vocabulary.

Definition alice : User :=
  mkUser 1 "a@x.com" "$2b$12$hash" true None None None 1700000000.
Definition bob : User :=
  mkUser 2 "b@x.com" "$2b$12$hash" false None None None 1700000000.

Definition john : Contact :=
  mkContact 5 "John" "Doe" "john@doe.org" "555-0100" (mkDate 1988 2 29) None 2.
Definition axel : Contact :=
  mkContact 6 "aXYZb" "Lee" "lee@mail.org" "555-0101" (mkDate 1990 3 1) None 1.
Definition leap_baby : Contact :=
  mkContact 9 "Lea" "Day" "lea@day.org" "555-0102" (mkDate 2000 2 29) None 1.

Definition t0 : Z := 1700000000.

Definition alice_refresh : string :=
  authservice.create_refresh_token (H:=ref_env) t0 (sub_claim "a@x.com") None.

Definition alice_access : string :=
  authservice.create_access_token (H:=ref_env) t0 (sub_claim "a@x.com") None.

End samples.

(** ** The issuers return exactly within the range of [datetime] *)

Module issuing_facts.
Import timestamps issuing authservice.

Lemma MIN_TIMESTAMP_eq : MIN_TIMESTAMP = -62135596800.
Proof. reflexivity. Qed.

Lemma MAX_TIMESTAMP_eq : MAX_TIMESTAMP = 253402300799.
Proof. reflexivity. Qed.

(** Between two instants of [datetime] there are fewer days than a
    [timedelta] holds. *)
Lemma timedelta_between (now d : Z) :
  datetime_in_range now → datetime_in_range (now + d) → timedelta_in_range d.
Proof.
  unfold datetime_in_range, timedelta_in_range.
  rewrite MIN_TIMESTAMP_eq, MAX_TIMESTAMP_eq. intros Hnow Hsum. split.
  - apply Z.div_le_lower_bound; lia.
  - apply Z.div_le_upper_bound; lia.
Qed.

Lemma add_seconds_in_range (now d : Z) :
  datetime_in_range now → datetime_in_range (now + d) →
  add_seconds now d = inr (now + d).
Proof.
  intros Hnow Hsum. unfold add_seconds.
  rewrite (bool_decide_eq_true_2 (timedelta_in_range d))
    by (by apply timedelta_between with now).
  by rewrite bool_decide_eq_true_2.
Qed.

Lemma add_seconds_overflow (now d : Z) :
  ¬ datetime_in_range (now + d) → ∃ msg, add_seconds now d = inl (OverflowError msg).
Proof.
  intros Hout. unfold add_seconds.
  case_bool_decide; [|by eexists]. rewrite bool_decide_eq_false_2 by done. by eexists.
Qed.

Section with_env.
Context `{AuthEnv}.

(** With the expiry inside the range of [datetime] the source returns the
    token of [create_access_token]; with the expiry outside it raises
    [OverflowError]. *)
Lemma try_create_access_token_in_range
    (now : Z) (data : gmap string json) (expires_delta : option Z) :
  datetime_in_range now →
  datetime_in_range (expiry now expires_delta (15 * 60)) →
  try_create_access_token now data expires_delta
  = inr (create_access_token now data expires_delta).
Proof.
  unfold try_create_access_token, create_access_token, expiry. intros Hnow Hexp.
  destruct expires_delta as [d|]; [case_bool_decide|]; by rewrite add_seconds_in_range.
Qed.

Lemma try_create_access_token_overflow
    (now : Z) (data : gmap string json) (expires_delta : option Z) :
  ¬ datetime_in_range (expiry now expires_delta (15 * 60)) →
  ∃ msg, try_create_access_token now data expires_delta = inl (OverflowError msg).
Proof.
  unfold try_create_access_token, expiry. intros Hout.
  destruct expires_delta as [d|]; [case_bool_decide|];
    (destruct (add_seconds_overflow _ _ Hout) as [msg ->]; by eexists).
Qed.

Lemma try_create_refresh_token_in_range
    (now : Z) (data : gmap string json) (expires_delta : option Z) :
  datetime_in_range now →
  datetime_in_range (expiry now expires_delta (7 * 24 * 60 * 60)) →
  try_create_refresh_token now data expires_delta
  = inr (create_refresh_token now data expires_delta).
Proof.
  unfold try_create_refresh_token, create_refresh_token, expiry. intros Hnow Hexp.
  destruct expires_delta as [d|]; [case_bool_decide|]; by rewrite add_seconds_in_range.
Qed.

Lemma try_create_reset_token_in_range
    (now : Z) (data : gmap string json) (expire : Z) :
  datetime_in_range now →
  datetime_in_range (now + expire * 60 * 60) →
  try_create_reset_token now data expire = inr (create_reset_token now data expire).
Proof.
  unfold try_create_reset_token, create_reset_token. intros Hnow Hexp.
  by rewrite add_seconds_in_range.
Qed.

Lemma try_create_reset_token_overflow
    (now : Z) (data : gmap string json) (expire : Z) :
  ¬ datetime_in_range (now + expire * 60 * 60) →
  ∃ msg, try_create_reset_token now data expire = inl (OverflowError msg).
Proof.
  unfold try_create_reset_token. intros Hout.
  destruct (add_seconds_overflow _ _ Hout) as [msg ->]. by eexists.
Qed.

End with_env.

(** A lifetime of 10^12 seconds, and one of 10^8 hours: the source raises. *)
Example lifetimes_that_overflow :
  (∃ msg, try_create_access_token (H:=ref_env) 1700000000
            (vocabulary.sub_claim "a@x.com") (Some 1000000000000)
          = inl (OverflowError msg))
  ∧ ∃ msg, try_create_reset_token (H:=ref_env) 1700000000
             (vocabulary.sub_claim "a@x.com") 100000000
           = inl (OverflowError msg).
Proof. split; by eexists. Qed.

End issuing_facts.

(** ** Token issuers and verifiers *)

Module auth_facts.
Import authservice.

Import vocabulary samples.

Section with_env.
Context `{AuthEnv}.

Lemma lookup_update_claims_scope (data : gmap string json) (iat exp : Z) (scope : string) :
  update_claims data iat exp scope !! "scope" = Some (JStr scope).
Proof. unfold update_claims. by simplify_map_eq. Qed.

Lemma lookup_update_claims_sub (subject : string) (iat exp : Z) (scope : string) :
  update_claims (sub_claim subject) iat exp scope !! "sub" = Some (JStr subject).
Proof. unfold update_claims, sub_claim. by simplify_map_eq. Qed.

(** The claims of a token issued for [{"sub": subject}] pass the checks of
    the decoder as long as the clock has not passed [exp]. *)
Lemma claims_valid_issued (now iat exp : Z) (subject scope : string) :
  now ≤ exp →
  claims_valid now (update_claims (sub_claim subject) iat exp scope) = true.
Proof.
  intros Hle. unfold claims_valid, update_claims, sub_claim.
  simplify_map_eq. rewrite !andb_true_r. by apply Z.leb_le.
Qed.

Lemma decode_issued (now iat exp : Z) (subject scope : string) :
  now ≤ exp →
  jwt_decode now
    (jwt_encode (update_claims (sub_claim subject) iat exp scope) SECRET_KEY ALGR)
    SECRET_KEY [ALGR]
  = inr (update_claims (sub_claim subject) iat exp scope).
Proof. intros Hle. by apply jwt_decode_valid, claims_valid_issued. Qed.

(** The [try] block accepts whatever was signed with scope
    ["access_token"] for a string subject, while it has not expired. *)
Lemma access_scope_accepted (now iat exp : Z) (subject : string) :
  now ≤ exp →
  get_current_user_email now
    (jwt_encode (update_claims (sub_claim subject) iat exp "access_token")
                SECRET_KEY ALGR)
  = inr (JStr subject).
Proof.
  intros Hle. unfold get_current_user_email. rewrite decode_issued by done.
  unfold get_is, get.
  rewrite lookup_update_claims_scope, lookup_update_claims_sub.
  by rewrite bool_decide_eq_true_2.
Qed.

(** A token of our own whose scope is not ["refresh_token"] is refused by
    [decode_refresh_token], with status 401, whether it decodes or not. *)
Lemma refresh_refuses_scope (now : Z) (c : gmap string json) :
  c !! "scope" ≠ Some (JStr "refresh_token") →
  ∃ detail headers,
    decode_refresh_token now (jwt_encode c SECRET_KEY ALGR)
    = inl (HTTPException 401 detail headers).
Proof.
  intros Hscope. unfold decode_refresh_token.
  destruct (jwt_decode now _ SECRET_KEY [ALGR]) as [err|c'] eqn:Hdec.
  - by eexists _, _.
  - apply jwt_decode_own in Hdec as ->.
    unfold get_is. rewrite bool_decide_eq_false_2 by done. by eexists _, _.
Qed.

(** Whatever makes the [try] block of [get_current_user] fail, it raises
    [credentials_exception]. *)
Lemma try_block_raises (now : Z) (token : string) (e : exn) :
  get_current_user_email now token = inl e → e = credentials_exception.
Proof.
  unfold get_current_user_email.
  destruct (jwt_decode now token SECRET_KEY [ALGR]) as [err|payload];
    [by intros [= <-]|].
  destruct (get_is payload "scope" "access_token"); cbn; [|by intros [= <-]].
  destruct (get payload "sub"); by intros [= <-].
Qed.

(** C1.  The access-token verifier does not tell a refresh token from an
    access token: [create_refresh_token] signs the scope ["access_token"],
    so for a registered user the refresh token issued for the user's e-mail
    is accepted by [get_current_user] until it expires, and the user is
    returned where the specification asks for a 401. *)
Theorem refresh_token_accepted_as_access
    (issued now : Z) (expires_delta : option Z) (db : list User) (user : User) :
  users_repo.repo_user_authentication_by_email (user_email user) db = Some user →
  now ≤ expiry issued expires_delta (7 * 24 * 60 * 60) →
  get_current_user now
    (create_refresh_token issued (sub_claim (user_email user)) expires_delta) db
  = inr user.
Proof.
  intros Hreg Hle. unfold get_current_user, create_refresh_token.
  rewrite access_scope_accepted by done. cbn. by rewrite Hreg.
Qed.

(** C2.  [verify_access (issue_access_token subject)]: for every subject
    string and every lifetime (in whole seconds, or the default) whose
    expiry is within the range of [datetime], issuing an access token for
    [{"sub": subject}] returns a token (it does not raise), and the [try]
    block of [get_current_user] run on that token returns the subject, at
    any time up to the expiry; [get_current_user] then returns the user
    stored under it. *)
Theorem access_token_round_trip
    (issued now : Z) (expires_delta : option Z) (subject : string) :
  timestamps.datetime_in_range issued →
  timestamps.datetime_in_range (expiry issued expires_delta (15 * 60)) →
  now ≤ expiry issued expires_delta (15 * 60) →
  issuing.try_create_access_token issued (sub_claim subject) expires_delta
  = inr (create_access_token issued (sub_claim subject) expires_delta)
  ∧ get_current_user_email now
      (create_access_token issued (sub_claim subject) expires_delta)
    = inr (JStr subject)
  ∧ ∀ db,
      get_current_user now
        (create_access_token issued (sub_claim subject) expires_delta) db
      = match users_repo.repo_user_authentication_by_email subject db with
        | Some user => inr user
        | None => inl credentials_exception
        end.
Proof.
  intros Hissued Hrange Hle.
  split; [by apply issuing_facts.try_create_access_token_in_range|].
  unfold get_current_user, create_access_token.
  rewrite access_scope_accepted by done. split; [done|]. intros db. cbn.
  by destruct (users_repo.repo_user_authentication_by_email subject db).
Qed.

(** C4.  [get_email_from_token] and [get_email_from_reset_token] raise
    exactly when [jwt.decode] raises, and what they raise is then the 422
    of the function; a token that decodes with another scope makes them
    return [None] without raising. *)
Theorem email_and_reset_token_asymmetry (now : Z) (token : string) :
  ((∃ e, get_email_from_token now token = inl e)
     ↔ (∃ err, jwt_decode now token SECRET_KEY [ALGR] = inl err))
  ∧ ((∃ e, get_email_from_reset_token now token = inl e)
     ↔ (∃ err, jwt_decode now token SECRET_KEY [ALGR] = inl err))
  ∧ (∀ e, get_email_from_token now token = inl e →
          e = HTTPException 422 "Invalid token for email confirmation." [])
  ∧ (∀ e, get_email_from_reset_token now token = inl e →
          e = HTTPException 422 "Invalid token for password reset." [])
  ∧ (∀ payload, jwt_decode now token SECRET_KEY [ALGR] = inr payload →
       payload !! "scope" ≠ Some (JStr "email_token") →
       get_email_from_token now token = inr None)
  ∧ (∀ payload, jwt_decode now token SECRET_KEY [ALGR] = inr payload →
       payload !! "scope" ≠ Some (JStr "refresh") →
       get_email_from_reset_token now token = inr None).
Proof.
  unfold get_email_from_token, get_email_from_reset_token, get_is.
  destruct (jwt_decode now token SECRET_KEY [ALGR]) as [err|payload].
  - repeat split; try (intros; by eauto); try (intros e [= <-]; done);
      intros payload [=].
  - repeat split;
      try (intros [e He]; repeat case_bool_decide; discriminate);
      try (intros [e [=]]);
      try (intros e He; repeat case_bool_decide; discriminate).
    + intros p [= <-] Hs. by rewrite bool_decide_eq_false_2.
    + intros p [= <-] Hs. by rewrite bool_decide_eq_false_2.
Qed.

(** C8, as the code has it.  Every failure of [get_current_user] is the one
    [credentials_exception]: 401, "Could not validate credentials",
    whichever check failed.  Every failure of [decode_refresh_token] is a
    401 as well, but its detail tells a token that does not decode ("Could
    not validate credentials") from one that decodes with a scope other
    than ["refresh_token"] ("Invalid token scope"). *)
Theorem unauthorized_details (now : Z) (token : string) (db : list User) :
  (∀ e, get_current_user now token db = inl e →
        e = HTTPException 401 "Could not validate credentials"
                          [("WWW-Authenticate", "Bearer")])
  ∧ (∀ e, decode_refresh_token now token = inl e →
          status_of e = Some 401
          ∧ detail_of e
            = Some (match jwt_decode now token SECRET_KEY [ALGR] with
                    | inl _ => "Could not validate credentials"
                    | inr _ => "Invalid token scope"
                    end)).
Proof.
  split.
  - unfold get_current_user. intros e He.
    destruct (get_current_user_email now token) as [e'|email] eqn:Hemail.
    + apply try_block_raises in Hemail as ->. by inversion He.
    + destruct email as [|n|s]; try by inversion He.
      destruct (users_repo.repo_user_authentication_by_email s db);
        by inversion He.
  - unfold decode_refresh_token. intros e He.
    destruct (jwt_decode now token SECRET_KEY [ALGR]) as [err|payload].
    + by inversion He.
    + destruct (get_is payload "scope" "refresh_token"); by inversion He.
Qed.

(** C9.  Nothing the four issuers produce passes [decode_refresh_token]:
    the scopes they sign are ["access_token"] (twice), ["email_token"] and
    ["refresh"], never ["refresh_token"], so the outcome is a 401. *)
Theorem issued_tokens_fail_refresh
    (issued now : Z) (data : gmap string json) (expires_delta : option Z) (expire : Z) :
  (∃ detail headers,
      decode_refresh_token now (create_access_token issued data expires_delta)
      = inl (HTTPException 401 detail headers))
  ∧ (∃ detail headers,
      decode_refresh_token now (create_refresh_token issued data expires_delta)
      = inl (HTTPException 401 detail headers))
  ∧ (∃ detail headers,
      decode_refresh_token now (create_email_token issued data)
      = inl (HTTPException 401 detail headers))
  ∧ (∃ detail headers,
      decode_refresh_token now (create_reset_token issued data expire)
      = inl (HTTPException 401 detail headers)).
Proof.
  unfold create_access_token, create_refresh_token, create_email_token,
    create_reset_token.
  repeat split; apply refresh_refuses_scope;
    by rewrite lookup_update_claims_scope.
Qed.

End with_env.

(** *** The same, run on the reference environment *)

Lemma refresh_token_accepted_as_access_witness :
  users_repo.repo_user_authentication_by_email "a@x.com" [alice] = Some alice
  ∧ t0 + 60 ≤ expiry t0 None (7 * 24 * 60 * 60)
  ∧ get_current_user (H:=ref_env) (t0 + 60) alice_refresh [alice] = inr alice.
Proof.
  split; [reflexivity|]. split; [by vm_compute|].
  apply (refresh_token_accepted_as_access (H:=ref_env) t0 (t0 + 60) None [alice] alice).
  - reflexivity.
  - by vm_compute.
Defined.

(** The scenario of the specification, evaluated: [GET /me] with the
    refresh token in place of the access token answers with the user. *)
Example get_me_with_refresh_token :
  get_current_user (H:=ref_env) (t0 + 60) alice_refresh [alice] = inr alice.
Proof. by vm_compute. Qed.

Lemma access_token_round_trip_witness :
  issuing.try_create_access_token (H:=ref_env) t0 (sub_claim "a@x.com") None
  = inr alice_access
  ∧ get_current_user_email (H:=ref_env) (t0 + 900) alice_access = inr (JStr "a@x.com")
  ∧ get_current_user (H:=ref_env) (t0 + 900) alice_access [alice] = inr alice.
Proof.
  destruct (access_token_round_trip (H:=ref_env) t0 (t0 + 900) None "a@x.com")
    as (Hissue & Hsubject & Huser).
  - by vm_compute.
  - by vm_compute.
  - by vm_compute.
  - split; [exact Hissue|]. split; [exact Hsubject|]. exact (Huser [alice]).
Defined.

Lemma email_and_reset_token_asymmetry_witness :
  get_email_from_token (H:=ref_env) (t0 + 60) alice_access = inr None
  ∧ get_email_from_reset_token (H:=ref_env) (t0 + 60) alice_access = inr None.
Proof.
  pose proof (email_and_reset_token_asymmetry (H:=ref_env) (t0 + 60) alice_access)
    as (_ & _ & _ & _ & Hemail & Hreset).
  split.
  - apply (Hemail (update_claims (sub_claim "a@x.com") t0 (t0 + 900) "access_token")).
    + by vm_compute.
    + by vm_compute.
  - apply (Hreset (update_claims (sub_claim "a@x.com") t0 (t0 + 900) "access_token")).
    + by vm_compute.
    + by vm_compute.
Defined.

(** C8 fails as stated: [decode_refresh_token] answers 401 to both tokens,
    but with "Invalid token scope" to the one that decodes and with "Could
    not validate credentials" to the one that does not, so the detail
    tells which check failed. *)
Lemma unauthorized_detail_reveals_scope_check :
  decode_refresh_token (H:=ref_env) (t0 + 60) alice_access
  = inl (HTTPException 401 "Invalid token scope" [])
  ∧ decode_refresh_token (H:=ref_env) (t0 + 60) "not a token"
    = inl (HTTPException 401 "Could not validate credentials" [])
  ∧ "Invalid token scope" ≠ "Could not validate credentials".
Proof. by vm_compute. Qed.

Lemma issued_tokens_fail_refresh_witness :
  ∃ detail headers,
    decode_refresh_token (H:=ref_env) (t0 + 60) alice_refresh
    = inl (HTTPException 401 detail headers).
Proof.
  apply (proj1 (proj2 (issued_tokens_fail_refresh (H:=ref_env) t0 (t0 + 60)
                         (sub_claim "a@x.com") None 1))).
Defined.

Lemma unauthorized_details_witness :
  status_of (HTTPException 401 "Invalid token scope" []) = Some 401
  ∧ detail_of (HTTPException 401 "Invalid token scope" [])
    = Some (match jwt_decode (t0 + 60) alice_access SECRET_KEY [ALGR] with
            | inl _ => "Could not validate credentials"
            | inr _ => "Invalid token scope"
            end).
Proof.
  apply (unauthorized_details (H:=ref_env) (t0 + 60) alice_access [alice]).
  by vm_compute.
Defined.

End auth_facts.

(** ** User directory *)

Module users_facts.
Import users_repo samples.

Lemma lookup_email (email : string) (db : list User) (user : User) :
  repo_user_authentication_by_email email db = Some user → user_email user = email.
Proof.
  unfold repo_user_authentication_by_email. intros Hf.
  apply find_some in Hf as [_ Hb]. by apply bool_decide_eq_true in Hb.
Qed.

(** After the commit the lookup finds the changed row. *)
Lemma lookup_commit_user (email : string) (f : User → User) (db : list User) (user : User) :
  (∀ u, user_email (f u) = user_email u) →
  repo_user_authentication_by_email email db = Some user →
  repo_user_authentication_by_email email (commit_user email f db) = Some (f user).
Proof.
  intros Hf. unfold repo_user_authentication_by_email.
  induction db as [|u db IH]; [done|]. cbn [find commit_user].
  case_bool_decide as Hu.
  - intros [= ->]. cbn [find]. by rewrite Hf, bool_decide_eq_true_2.
  - intros Hfind. cbn [find]. rewrite bool_decide_eq_false_2 by done. auto.
Qed.

(** The rows of the other e-mails are as they were. *)
Lemma lookup_commit_user_ne (email email' : string) (f : User → User) (db : list User) :
  (∀ u, user_email (f u) = user_email u) →
  email' ≠ email →
  repo_user_authentication_by_email email' (commit_user email f db)
  = repo_user_authentication_by_email email' db.
Proof.
  intros Hf Hne. unfold repo_user_authentication_by_email.
  induction db as [|u db IH]; [done|]. cbn [find commit_user].
  case_bool_decide as Hu; cbn [find].
  - rewrite Hf. rewrite !bool_decide_eq_false_2 by congruence. done.
  - by rewrite IH.
Qed.






End users_facts.

(** ** Contact store *)

Module contacts_facts.
Import contacts_repo vocabulary samples.

Lemma primary_key_unique (db : list Contact) (c c' : Contact) :
  primary_key db → c ∈ db → c' ∈ db → id c = id c' → c = c'.
Proof.
  unfold primary_key. induction db as [|x db IH]; [by intros _ ?%elem_of_nil|].
  rewrite fmap_cons, NoDup_cons. intros [Hx Hnd] Hc Hc' Hid.
  apply elem_of_cons in Hc as [->|Hc]; apply elem_of_cons in Hc' as [->|Hc'].
  - done.
  - destruct Hx. rewrite Hid. by apply list_elem_of_fmap_2.
  - destruct Hx. rewrite <- Hid. by apply list_elem_of_fmap_2.
  - by apply IH.
Qed.

(** The owner-scoped lookup finds nothing when no row has both the id and
    the owner. *)
Lemma get_specific_none (cid : Z) (user : User) (db : list Contact) :
  (∀ c, c ∈ db → id c = cid → user_id c ≠ user_pk user) →
  get_specific_contact_belongs_to_user cid user db = None.
Proof.
  intros Hno. unfold get_specific_contact_belongs_to_user.
  induction db as [|c db IH]; [done|]. cbn [find].
  unfold owned_with_id at 1.
  destruct (decide (id c = cid)) as [Hid|Hid].
  - rewrite (bool_decide_eq_false_2 (user_id c = user_pk user)).
    + cbn. apply IH. intros c' Hc'. apply Hno. by right.
    + apply Hno; [by left|done].
  - rewrite (bool_decide_eq_false_2 (id c = cid)) by done. rewrite andb_false_r.
    apply IH. intros c' Hc'. apply Hno. by right.
Qed.

Lemma not_owned_none (cid : Z) (user : User) (db : list Contact) :
  primary_key db →
  absent cid db ∨ owned_by_other cid user db →
  get_specific_contact_belongs_to_user cid user db = None.
Proof.
  intros Hpk [Habs|(c & Hc & Hid & Hown)]; apply get_specific_none.
  - intros c' Hc' Hid'. by destruct (Habs c' Hc').
  - intros c' Hc' Hid'.
    by rewrite <- (primary_key_unique db c c' Hpk Hc Hc') by congruence.
Qed.

(** C3.  Invoked as user A on an id that is not in the table, or that is
    the id of a contact of another user, [repo_get_contact_by_id],
    [repo_update_contact_db] and [repo_delete_contact_db] all raise the
    same [HTTPException]: 404, "Contact not found"; the table is as it was.
    The two cases give the same outcome. *)
Theorem not_owned_is_not_found
    (cid : Z) (A : User) (body : ContactUpdate) (db : list Contact) :
  primary_key db →
  absent cid db ∨ owned_by_other cid A db →
  repo_get_contact_by_id cid A db = inl (HTTPException 404 "Contact not found" [])
  ∧ repo_update_contact_db cid A body db
    = (inl (HTTPException 404 "Contact not found" []), db)
  ∧ repo_delete_contact_db cid A db
    = (inl (HTTPException 404 "Contact not found" []), db).
Proof.
  intros Hpk Hcase.
  unfold repo_get_contact_by_id, repo_update_contact_db, repo_delete_contact_db.
  by rewrite (not_owned_none cid A db Hpk Hcase).
Qed.

Lemma not_owned_is_not_found_witness :
  (repo_get_contact_by_id 5 alice [john; axel]
   = inl (HTTPException 404 "Contact not found" [])
   ∧ repo_update_contact_db 5 alice
       (mkContactUpdate (Some "Jon") None None None None None) [john; axel]
     = (inl (HTTPException 404 "Contact not found" []), [john; axel])
   ∧ repo_delete_contact_db 5 alice [john; axel]
     = (inl (HTTPException 404 "Contact not found" []), [john; axel]))
  ∧ (repo_get_contact_by_id 7 alice [john; axel]
     = inl (HTTPException 404 "Contact not found" [])
     ∧ repo_update_contact_db 7 alice
         (mkContactUpdate (Some "Jon") None None None None None) [john; axel]
       = (inl (HTTPException 404 "Contact not found" []), [john; axel])
     ∧ repo_delete_contact_db 7 alice [john; axel]
       = (inl (HTTPException 404 "Contact not found" []), [john; axel])).
Proof.
  assert (Hpk : primary_key [john; axel]).
  { unfold primary_key. apply (bool_decide_unpack _). by vm_compute. }
  split.
  - apply (not_owned_is_not_found 5 alice _ [john; axel] Hpk).
    right. exists john. split; [by left|]. by vm_compute.
  - apply (not_owned_is_not_found 7 alice _ [john; axel] Hpk).
    left. intros c Hc. by repeat (apply elem_of_cons in Hc as [->|Hc]);
      [..|apply elem_of_nil in Hc].
Defined.

(** *** Upcoming birthdays *)

Lemma new_date_raises (y m d : Z) (e : exn) :
  datetime.new_date y m d = inl e → ∃ msg, e = ValueError msg.
Proof.
  unfold datetime.new_date. intros He.
  repeat match type of He with
         | context [if ?b then _ else _] => destruct b
         end; inversion He; by eexists.
Qed.

Lemma new_date_feb29 (y : Z) :
  datetime._is_leap y = false → ∃ msg, datetime.new_date y 2 29 = inl (ValueError msg).
Proof.
  intros Hleap. unfold datetime.new_date, datetime._days_in_month.
  rewrite Hleap. cbn.
  destruct (negb ((datetime.MINYEAR <=? y) && (y <=? datetime.MAXYEAR))); by eexists.
Qed.

(** Once the loop meets a 29 February in a common year it raises; nothing
    before that point can make it return. *)
Lemma birthday_loop_raises (today end_date : date) (contacts answer : list Contact)
    (c : Contact) :
  datetime._is_leap (year today) = false →
  c ∈ contacts → month (b_day c) = 2 → day (b_day c) = 29 →
  ∃ msg, birthday_loop today end_date contacts answer = inl (ValueError msg).
Proof.
  intros Hleap Hc Hm Hd. revert answer.
  induction contacts as [|x contacts IH]; intros answer;
    [by apply elem_of_nil in Hc|].
  cbn [birthday_loop].
  destruct (datetime.new_date (year today) (month (b_day x)) (day (b_day x)))
    as [e|d] eqn:Hnew.
  - apply new_date_raises in Hnew as [msg ->]. by eexists.
  - apply elem_of_cons in Hc as [->|Hc].
    + rewrite Hm, Hd in Hnew.
      destruct (new_date_feb29 (year today) Hleap) as [msg Hraise]. congruence.
    + destruct (_ && _); by apply IH.
Qed.

(** C6.  [repo_get_upcoming_birthday_contacts] does not survive a stored
    29 February: in a year that is not a leap year, an owner who has such a
    contact gets [ValueError] from the date constructor instead of a list,
    whatever the other contacts are. *)
Theorem feb29_birthday_raises
    (today end_date : date) (user : User) (db : list Contact) (c : Contact) :
  datetime.add_days today 7 = inr end_date →
  datetime._is_leap (year today) = false →
  c ∈ db → user_id c = user_pk user →
  month (b_day c) = 2 → day (b_day c) = 29 →
  ∃ msg, repo_get_upcoming_birthday_contacts today user db = inl (ValueError msg).
Proof.
  intros Hend Hleap Hc Hown Hm Hd. unfold repo_get_upcoming_birthday_contacts.
  rewrite Hend. apply birthday_loop_raises with c; try done.
  apply list_elem_of_In, filter_In. split; [by apply list_elem_of_In|].
  by apply bool_decide_eq_true.
Qed.

Lemma feb29_birthday_raises_witness :
  ∃ msg,
    repo_get_upcoming_birthday_contacts (mkDate 2023 6 1) alice [axel; leap_baby; john]
    = inl (ValueError msg).
Proof.
  apply (feb29_birthday_raises (mkDate 2023 6 1) (mkDate 2023 6 8) alice
           [axel; leap_baby; john] leap_baby).
  - by vm_compute.
  - by vm_compute.
  - right. by left.
  - reflexivity.
  - reflexivity.
  - reflexivity.
Defined.

(** The failing call, evaluated; and the same table in a leap year. *)
Example feb29_in_2023 :
  repo_get_upcoming_birthday_contacts (mkDate 2023 6 1) alice [axel; leap_baby; john]
  = inl (ValueError "day is out of range for month").
Proof. by vm_compute. Qed.

Example feb29_in_2024 :
  repo_get_upcoming_birthday_contacts (mkDate 2024 2 25) alice [axel; leap_baby; john]
  = inr [axel; leap_baby].
Proof. by vm_compute. Qed.

(** *** Listing and search *)

Lemma like_percent_unfold (p s : string) :
  sql.like (String "%" p) s
  = sql.like p s
    || match s with
       | EmptyString => false
       | String _ s' => sql.like (String "%" p) s'
       end.
Proof. by destruct s. Qed.

Lemma like_percent_all (s : string) : sql.like "%" s = true.
Proof.
  induction s as [|c s IH]; [done|].
  rewrite like_percent_unfold, IH. apply orb_true_r.
Qed.

Lemma like_percent_percent (s : string) : sql.like "%%" s = true.
Proof. by rewrite like_percent_unfold, like_percent_all. Qed.

(** C7.  Searching with the empty query is listing: for every owner, page
    size and offset, [repo_get_contacts_query] with [""] returns the rows
    that [repo_get_contacts] returns, in the same order; the pattern is
    ["%%"], which every name and e-mail matches. *)
Theorem search_empty_is_list
    (user : User) (limit offset : nat) (db : list Contact) :
  repo_get_contacts_query user "" limit offset db
  = repo_get_contacts db user limit offset.
Proof.
  unfold repo_get_contacts_query, repo_get_contacts, select_page.
  do 3 f_equal. apply filter_ext. intros c. unfold matches_query.
  change (sql.lower ("%" +:+ "" +:+ "%")) with "%%".
  by rewrite !like_percent_percent, andb_true_r.
Qed.

(** *** Wildcards in the search query *)

Import string_facts.

Lemma lower_app (a b : string) : sql.lower (a +:+ b) = sql.lower a +:+ sql.lower b.
Proof. induction a as [|c a IH]; [done|]. rewrite sapp_cons. cbn. by rewrite IH. Qed.

Lemma literal_lower_char (c : ascii) :
  sql.literal_char c = true → sql.literal_char (sql.lower_char c) = true.
Proof. destruct c as [[] [] [] [] [] [] [] []]; by vm_compute. Qed.

Lemma literal_lower (s : string) : sql.literal s = true → sql.literal (sql.lower s) = true.
Proof.
  induction s as [|c s IH]; [done|]. cbn. rewrite !andb_true_iff.
  intros [Hc Hs]. split; [by apply literal_lower_char|by apply IH].
Qed.

(** A pattern that starts with [%] matches by skipping any prefix. *)
Lemma like_percent (p s : string) :
  sql.like (String "%" p) s = true ↔ ∃ a b, s = a +:+ b ∧ sql.like p b = true.
Proof.
  split.
  - induction s as [|c s IH]; rewrite like_percent_unfold, orb_true_iff.
    + intros [Hp|[=]]. by exists "", "".
    + intros [Hp|Hs]; [by exists "", (String c s)|].
      destruct (IH Hs) as (a & b & -> & Hb). by exists (String c a), b.
  - intros (a & b & -> & Hb). induction a as [|c a IH].
    + rewrite sapp_empty, like_percent_unfold, Hb. done.
    + rewrite sapp_cons, like_percent_unfold, IH. apply orb_true_r.
Qed.

(** A pattern that starts with [_] matches by skipping one character. *)
Lemma like_underscore (p s : string) :
  sql.like (String "_" p) s = true ↔ ∃ x r, s = String x r ∧ sql.like p r = true.
Proof.
  destruct s as [|x r]; cbn.
  - split; [done|]. by intros (? & ? & [=] & _).
  - split; [by exists x, r|]. by intros (? & ? & [= -> ->] & ?).
Qed.

Lemma like_literal_char (c : ascii) (p s : string) :
  sql.literal_char c = true →
  sql.like (String c p) s
  = match s with
    | EmptyString => false
    | String d s' => bool_decide (c = d) && sql.like p s'
    end.
Proof. destruct c as [[] [] [] [] [] [] [] []]; (done || by destruct s). Qed.

(** A pattern that starts with literal characters matches by reading
    exactly these. *)
Lemma like_literal (u p s : string) :
  sql.literal u = true →
  sql.like (u +:+ p) s = true ↔ ∃ r, s = u +:+ r ∧ sql.like p r = true.
Proof.
  revert s. induction u as [|c u IH]; intros s.
  - intros _. rewrite sapp_empty. split; [by exists s|]. by intros (r & -> & Hr).
  - cbn [sql.literal]. rewrite andb_true_iff. intros [Hc Hu].
    rewrite sapp_cons, (like_literal_char c) by done.
    destruct s as [|d s]; [split; [done|by intros (? & [=] & _)]|].
    rewrite andb_true_iff, bool_decide_eq_true, (IH s Hu). split.
    + intros (-> & r & -> & Hr). by exists r.
    + intros (r & [= -> ->] & Hr). split; [done|]. by exists r.
Qed.

(** The pattern built around a query that has one wildcard [w] inside. *)
Lemma pattern_shape (w : ascii) (u v : string) :
  "%" +:+ (u +:+ String w "" +:+ v) +:+ "%" = String "%" (u +:+ String w (v +:+ "%")).
Proof.
  transitivity (String "%" ((u +:+ String w v) +:+ "%")); [reflexivity|].
  by rewrite sapp_assoc.
Qed.

(** [%u%v%] for literal [u] and [v]: some [u], later some [v]. *)
Lemma like_percent_inside (u v s : string) :
  sql.literal u = true → sql.literal v = true →
  sql.like ("%" +:+ (u +:+ "%" +:+ v) +:+ "%") s = true
  ↔ ∃ a m b, s = a +:+ u +:+ m +:+ v +:+ b.
Proof.
  intros Hu Hv. rewrite pattern_shape, like_percent. split.
  - intros (a & s1 & -> & H1).
    apply (like_literal u) in H1 as (s2 & -> & H2); [|done].
    apply like_percent in H2 as (m & s3 & -> & H3).
    apply (like_literal v) in H3 as (b & -> & _); [|done].
    by exists a, m, b.
  - intros (a & m & b & ->). exists a, (u +:+ m +:+ v +:+ b). split; [done|].
    apply like_literal; [done|].
    eexists; split; [done|]. apply like_percent.
    exists m, (v +:+ b). split; [done|].
    apply like_literal; [done|]. exists b. split; [done|]. apply like_percent_all.
Qed.

(** [%u_v%] for literal [u] and [v]: some [u], one character, then [v]. *)
Lemma like_underscore_inside (u v s : string) :
  sql.literal u = true → sql.literal v = true →
  sql.like ("%" +:+ (u +:+ "_" +:+ v) +:+ "%") s = true
  ↔ ∃ a x b, s = a +:+ u +:+ String x (v +:+ b).
Proof.
  intros Hu Hv. rewrite pattern_shape, like_percent. split.
  - intros (a & s1 & -> & H1).
    apply (like_literal u) in H1 as (s2 & -> & H2); [|done].
    apply like_underscore in H2 as (x & s3 & -> & H3).
    apply (like_literal v) in H3 as (b & -> & _); [|done].
    by exists a, x, b.
  - intros (a & x & b & ->). exists a, (u +:+ String x (v +:+ b)). split; [done|].
    apply like_literal; [done|].
    eexists; split; [done|]. apply like_underscore.
    exists x, (v +:+ b). split; [done|].
    apply like_literal; [done|]. exists b. split; [done|]. apply like_percent_all.
Qed.

(** With a page as long as the table and no offset, the page holds every
    row that satisfies the condition. *)
Lemma select_page_all (cond : Contact → bool) (db : list Contact) (c : Contact) :
  c ∈ select_page cond (length db) 0 db ↔ c ∈ db ∧ cond c = true.
Proof.
  unfold select_page. rewrite drop_0, take_ge.
  - rewrite merge_sort_Permutation, list_elem_of_In, filter_In, <- list_elem_of_In.
    done.
  - rewrite merge_sort_Permutation. apply List.filter_length_le.
Qed.

Lemma matches_query_iff (user : User) (pattern : string) (c : Contact)
    (P : string → Prop) :
  (∀ s, sql.like pattern s = true ↔ P s) →
  matches_query user pattern c = true
  ↔ user_id c = user_pk user ∧ ∃ f, f ∈ searched_fields c ∧ P (sql.lower f).
Proof.
  intros HP. unfold matches_query, searched_fields.
  rewrite andb_true_iff, !orb_true_iff, bool_decide_eq_true, !HP.
  split.
  - intros [Hown [[Hf|Hl]|He]]; (split; [done|]).
    + exists (first_name c). split; [by left|done].
    + exists (last_name c). split; [right; by left|done].
    + exists (email c). split; [do 2 right; by left|done].
  - intros [Hown (f & Hin & Hf)]. split; [done|].
    repeat (apply elem_of_cons in Hin as [->|Hin]); [tauto..|].
    by apply elem_of_nil in Hin.
Qed.

(** C10.  The query goes into the [LIKE] pattern as it is.  On ASCII text
    (the query and the three fields of the contact), a query [u%v] (with
    [u], [v] free of wildcards) selects exactly the owner's contacts that
    have, in the first name, the last name or the e-mail, [u] and later [v]
    with anything in between; a query [u_v] selects exactly those that have
    [u], any one character, then [v] (all compared in lower case).  Neither
    asks for the character [%] or [_] itself. *)
Theorem wildcards_in_query_not_escaped
    (user : User) (u v : string) (c : Contact) (db : list Contact) :
  text.ascii_only u = true → text.ascii_only v = true →
  forallb text.ascii_only (searched_fields c) = true →
  sql.literal u = true → sql.literal v = true →
  (c ∈ repo_get_contacts_query user (u +:+ "%" +:+ v) (length db) 0 db
   ↔ c ∈ db ∧ user_id c = user_pk user
     ∧ ∃ f, f ∈ searched_fields c
            ∧ ∃ a m b, sql.lower f = a +:+ sql.lower u +:+ m +:+ sql.lower v +:+ b)
  ∧ (c ∈ repo_get_contacts_query user (u +:+ "_" +:+ v) (length db) 0 db
     ↔ c ∈ db ∧ user_id c = user_pk user
       ∧ ∃ f, f ∈ searched_fields c
              ∧ ∃ a x b, sql.lower f
                         = a +:+ sql.lower u +:+ String x (sql.lower v +:+ b)).
Proof.
  intros _ _ _ Hu%literal_lower Hv%literal_lower.
  unfold repo_get_contacts_query. rewrite !select_page_all, !lower_app.
  change (sql.lower "%") with "%". change (sql.lower "_") with "_".
  split.
  - rewrite (matches_query_iff user _ c
               (λ s, ∃ a m b, s = a +:+ sql.lower u +:+ m +:+ sql.lower v +:+ b));
      [done|].
    intros s. by apply like_percent_inside.
  - rewrite (matches_query_iff user _ c
               (λ s, ∃ a x b, s = a +:+ sql.lower u +:+ String x (sql.lower v +:+ b)));
      [done|].
    intros s. by apply like_underscore_inside.
Qed.

Lemma wildcards_in_query_not_escaped_witness :
  axel ∈ repo_get_contacts_query alice "a%b" 2 0 [john; axel]
  ∧ axel ∈ repo_get_contacts_query alice "l_e" 2 0 [john; axel].
Proof.
  split.
  - apply (proj1 (wildcards_in_query_not_escaped alice "a" "b" axel [john; axel]
                    eq_refl eq_refl eq_refl eq_refl eq_refl)).
    split; [right; by left|]. split; [reflexivity|].
    exists "aXYZb". split; [by left|]. by exists "", "xyz", "".
  - apply (proj2 (wildcards_in_query_not_escaped alice "l" "e" axel [john; axel]
                    eq_refl eq_refl eq_refl eq_refl eq_refl)).
    split; [right; by left|]. split; [reflexivity|].
    exists "Lee". split; [right; by left|]. by exists "", "e"%char, "".
Defined.

(** The two queries above find the contact although neither ["a%b"] nor
    ["l_e"] occurs in any of its fields. *)
Example wildcard_queries_are_not_substrings :
  repo_get_contacts_query alice "a%b" 10 0 [john; axel] = [axel]
  ∧ repo_get_contacts_query alice "l_e" 10 0 [john; axel] = [axel]
  ∧ forallb (λ f, negb (sql.substring "a%b" (sql.lower f))
                  && negb (sql.substring "l_e" (sql.lower f)))
            (searched_fields axel) = true.
Proof. by vm_compute. Qed.

End contacts_facts.


(** * Further properties *)

(** ** Token kinds, expiry and what a verifier vouches for *)

Module auth_more.
Import authservice vocabulary samples.

Section with_env.
Context `{AuthEnv}.

(** The e-mail verifier on a token of our own whose scope is another one:
    it raises its 422 or returns [None], never a subject. *)
Lemma email_verifier_other_scope (now : Z) (c : gmap string json) (v : json) :
  c !! "scope" ≠ Some (JStr "email_token") →
  get_email_from_token now (jwt_encode c SECRET_KEY ALGR) ≠ inr (Some v).
Proof.
  intros Hscope. unfold get_email_from_token.
  destruct (jwt_decode now _ SECRET_KEY [ALGR]) as [err|c'] eqn:Hdec; [done|].
  apply jwt_decode_own in Hdec as ->. unfold get_is.
  by rewrite bool_decide_eq_false_2.
Qed.

Lemma reset_verifier_other_scope (now : Z) (c : gmap string json) (v : json) :
  c !! "scope" ≠ Some (JStr "refresh") →
  get_email_from_reset_token now (jwt_encode c SECRET_KEY ALGR) ≠ inr (Some v).
Proof.
  intros Hscope. unfold get_email_from_reset_token.
  destruct (jwt_decode now _ SECRET_KEY [ALGR]) as [err|c'] eqn:Hdec; [done|].
  apply jwt_decode_own in Hdec as ->. unfold get_is.
  by rewrite bool_decide_eq_false_2.
Qed.

Lemma access_verifier_other_scope (now : Z) (c : gmap string json) (db : list User) :
  c !! "scope" ≠ Some (JStr "access_token") →
  get_current_user now (jwt_encode c SECRET_KEY ALGR) db = inl credentials_exception.
Proof.
  intros Hscope. unfold get_current_user, get_current_user_email.
  destruct (jwt_decode now _ SECRET_KEY [ALGR]) as [err|c'] eqn:Hdec; [done|].
  apply jwt_decode_own in Hdec as ->. unfold get_is.
  by rewrite bool_decide_eq_false_2.
Qed.

Lemma lookup_update_claims_exp (data : gmap string json) (iat exp : Z) (scope : string) :
  update_claims data iat exp scope !! "exp" = Some (JNum exp).
Proof. unfold update_claims. by simplify_map_eq. Qed.

Lemma decode_issued_expired (now iat exp : Z) (data : gmap string json) (scope : string) :
  exp < now →
  jwt_decode now (jwt_encode (update_claims data iat exp scope) SECRET_KEY ALGR)
             SECRET_KEY [ALGR]
  = inl ExpiredSignatureError.
Proof.
  intros Hlt. apply jwt_decode_expired with exp; [|done].
  apply lookup_update_claims_exp.
Qed.

(** X1.  The e-mail confirmation token round trip: for an hour from its
    issue, [get_email_from_token] returns the subject that
    [create_email_token] was given. *)
Theorem email_token_round_trip (issued now : Z) (subject : string) :
  now ≤ issued + 3600 →
  get_email_from_token now (create_email_token issued (sub_claim subject))
  = inr (Some (JStr subject)).
Proof.
  intros Hle. unfold get_email_from_token, create_email_token.
  rewrite auth_facts.decode_issued by lia. unfold get_is, get.
  rewrite auth_facts.lookup_update_claims_scope, auth_facts.lookup_update_claims_sub.
  by rewrite bool_decide_eq_true_2.
Qed.

(** X2.  The password-reset token round trip: for a number of hours
    [expire] that keeps the expiry within the range of [datetime],
    [create_reset_token] returns a token (it does not raise), and until
    [expire] hours after its issue [get_email_from_reset_token] returns the
    subject it was given. *)
Theorem reset_token_round_trip (issued now expire : Z) (subject : string) :
  timestamps.datetime_in_range issued →
  timestamps.datetime_in_range (issued + expire * 60 * 60) →
  now ≤ issued + expire * 3600 →
  issuing.try_create_reset_token issued (sub_claim subject) expire
  = inr (create_reset_token issued (sub_claim subject) expire)
  ∧ get_email_from_reset_token now
      (create_reset_token issued (sub_claim subject) expire)
    = inr (Some (JStr subject)).
Proof.
  intros Hissued Hrange Hle.
  split; [by apply issuing_facts.try_create_reset_token_in_range|].
  unfold get_email_from_reset_token, create_reset_token.
  rewrite auth_facts.decode_issued by lia. unfold get_is, get.
  rewrite auth_facts.lookup_update_claims_scope, auth_facts.lookup_update_claims_sub.
  by rewrite bool_decide_eq_true_2.
Qed.

(** X3.  Past its expiry a token issued for [{"sub": subject}] is refused
    by the verifier of its own kind: an access token by [get_current_user]
    with the 401, even for a registered subject, an e-mail token and a reset
    token with the 422 of their verifiers. *)
Theorem expired_tokens_rejected
    (issued now : Z) (subject : string) (expires_delta : option Z)
    (expire : Z) (db : list User) :
  (expiry issued expires_delta (15 * 60) < now →
   get_current_user now (create_access_token issued (sub_claim subject) expires_delta) db
   = inl credentials_exception)
  ∧ (issued + 3600 < now →
     get_email_from_token now (create_email_token issued (sub_claim subject))
     = inl (HTTPException 422 "Invalid token for email confirmation." []))
  ∧ (issued + expire * 3600 < now →
     get_email_from_reset_token now
       (create_reset_token issued (sub_claim subject) expire)
     = inl (HTTPException 422 "Invalid token for password reset." [])).
Proof.
  repeat split; intros Hlt.
  - unfold get_current_user, get_current_user_email, create_access_token.
    by rewrite decode_issued_expired.
  - unfold get_email_from_token, create_email_token.
    by rewrite decode_issued_expired by lia.
  - unfold get_email_from_reset_token, create_reset_token.
    by rewrite decode_issued_expired by lia.
Qed.

(** X4.  The scope keeps the e-mail and reset tokens apart from the others:
    [get_current_user] answers the 401 to every e-mail token and every reset
    token, at any time; and neither [get_email_from_token] nor
    [get_email_from_reset_token] ever returns a subject for a token of
    another issuer. *)
Theorem scopes_keep_token_kinds_apart
    (issued now : Z) (data : gmap string json) (expires_delta : option Z)
    (expire : Z) (db : list User) (v : json) :
  get_current_user now (create_email_token issued data) db = inl credentials_exception
  ∧ get_current_user now (create_reset_token issued data expire) db
    = inl credentials_exception
  ∧ get_email_from_token now (create_access_token issued data expires_delta)
    ≠ inr (Some v)
  ∧ get_email_from_token now (create_refresh_token issued data expires_delta)
    ≠ inr (Some v)
  ∧ get_email_from_token now (create_reset_token issued data expire) ≠ inr (Some v)
  ∧ get_email_from_reset_token now (create_access_token issued data expires_delta)
    ≠ inr (Some v)
  ∧ get_email_from_reset_token now (create_refresh_token issued data expires_delta)
    ≠ inr (Some v)
  ∧ get_email_from_reset_token now (create_email_token issued data) ≠ inr (Some v).
Proof.
  unfold create_access_token, create_refresh_token, create_email_token,
    create_reset_token.
  repeat split;
    first [apply access_verifier_other_scope
          |apply email_verifier_other_scope
          |apply reset_verifier_other_scope];
    by rewrite auth_facts.lookup_update_claims_scope.
Qed.

(** X5.  What [get_current_user] vouches for: a user it returns is a row of
    the table, and the token decoded, at that time and under the service's
    key, to a payload with scope ["access_token"] whose subject is the
    e-mail of that user. *)
Theorem get_current_user_sound (now : Z) (token : string) (db : list User) (user : User) :
  get_current_user now token db = inr user →
  user ∈ db
  ∧ users_repo.repo_user_authentication_by_email (user_email user) db = Some user
  ∧ ∃ payload,
      jwt_decode now token SECRET_KEY [ALGR] = inr payload
      ∧ payload !! "scope" = Some (JStr "access_token")
      ∧ payload !! "sub" = Some (JStr (user_email user)).
Proof.
  unfold get_current_user, get_current_user_email. intros Hu.
  destruct (jwt_decode now token SECRET_KEY [ALGR]) as [err|payload]; [done|].
  unfold get_is, get in Hu. case_bool_decide as Hscope; [|done]. cbn in Hu.
  destruct (payload !! "sub") as [[|n|s]|] eqn:Hsub; try done.
  destruct (users_repo.repo_user_authentication_by_email s db) as [u|] eqn:Hfind;
    [|done].
  injection Hu as ->.
  pose proof (users_facts.lookup_email _ _ _ Hfind) as <-.
  split; [|split; [done|by exists payload]].
  apply find_some in Hfind as [Hin _]. by apply list_elem_of_In.
Qed.

(** X6.  [decode_refresh_token] does accept what is signed with scope
    ["refresh_token"]: for claims of that scope that pass the decoder it
    returns the subject, and [None] when there is none (it has no check for
    a missing subject). *)
Theorem refresh_scope_accepted (now : Z) (c : gmap string json) :
  claims_valid now c = true →
  c !! "scope" = Some (JStr "refresh_token") →
  decode_refresh_token now (jwt_encode c SECRET_KEY ALGR) = inr (get c "sub").
Proof.
  intros Hvalid Hscope. unfold decode_refresh_token.
  rewrite jwt_decode_valid by done. unfold get_is.
  by rewrite bool_decide_eq_true_2.
Qed.

End with_env.

Lemma email_token_round_trip_witness :
  get_email_from_token (H:=ref_env) (t0 + 3600)
    (create_email_token (H:=ref_env) t0 (sub_claim "a@x.com"))
  = inr (Some (JStr "a@x.com")).
Proof.
  apply (email_token_round_trip (H:=ref_env) t0 (t0 + 3600) "a@x.com"). by vm_compute.
Defined.

Lemma reset_token_round_trip_witness :
  issuing.try_create_reset_token (H:=ref_env) t0 (sub_claim "a@x.com") 2
  = inr (create_reset_token (H:=ref_env) t0 (sub_claim "a@x.com") 2)
  ∧ get_email_from_reset_token (H:=ref_env) (t0 + 7200)
      (create_reset_token (H:=ref_env) t0 (sub_claim "a@x.com") 2)
    = inr (Some (JStr "a@x.com")).
Proof.
  apply (reset_token_round_trip (H:=ref_env) t0 (t0 + 7200) 2 "a@x.com");
    by vm_compute.
Defined.

Lemma expired_tokens_rejected_witness :
  get_current_user (H:=ref_env) (t0 + 901) alice_access [alice]
  = inl credentials_exception
  ∧ get_email_from_token (H:=ref_env) (t0 + 3601)
      (create_email_token (H:=ref_env) t0 (sub_claim "a@x.com"))
    = inl (HTTPException 422 "Invalid token for email confirmation." [])
  ∧ get_email_from_reset_token (H:=ref_env) (t0 + 3601)
      (create_reset_token (H:=ref_env) t0 (sub_claim "a@x.com") 1)
    = inl (HTTPException 422 "Invalid token for password reset." []).
Proof.
  split; [|split].
  - apply (proj1 (expired_tokens_rejected (H:=ref_env) t0 (t0 + 901)
                    "a@x.com" None 1 [alice])).
    by vm_compute.
  - apply (proj1 (proj2 (expired_tokens_rejected (H:=ref_env) t0 (t0 + 3601)
                           "a@x.com" None 1 [alice]))).
    by vm_compute.
  - apply (proj2 (proj2 (expired_tokens_rejected (H:=ref_env) t0 (t0 + 3601)
                           "a@x.com" None 1 [alice]))).
    by vm_compute.
Defined.

Lemma scopes_keep_token_kinds_apart_witness :
  get_current_user (H:=ref_env) (t0 + 60)
    (create_email_token (H:=ref_env) t0 (sub_claim "a@x.com")) [alice]
  = inl credentials_exception.
Proof.
  apply (scopes_keep_token_kinds_apart (H:=ref_env) t0 (t0 + 60)
           (sub_claim "a@x.com") None 1 [alice] JNull).
Defined.

Lemma get_current_user_sound_witness :
  alice ∈ [alice]
  ∧ users_repo.repo_user_authentication_by_email (user_email alice) [alice] = Some alice
  ∧ ∃ payload,
      jwt_decode (t0 + 60) alice_access SECRET_KEY [ALGR] = inr payload
      ∧ payload !! "scope" = Some (JStr "access_token")
      ∧ payload !! "sub" = Some (JStr (user_email alice)).
Proof.
  apply (get_current_user_sound (H:=ref_env) (t0 + 60) alice_access [alice] alice).
  by vm_compute.
Defined.

Lemma refresh_scope_accepted_witness :
  decode_refresh_token (H:=ref_env) (t0 + 60)
    (jwt_encode (update_claims (sub_claim "a@x.com") t0 (t0 + 600) "refresh_token")
                SECRET_KEY ALGR)
  = inr (Some (JStr "a@x.com"))
  ∧ decode_refresh_token (H:=ref_env) (t0 + 60)
      (jwt_encode (update_claims ∅ t0 (t0 + 600) "refresh_token") SECRET_KEY ALGR)
    = inr None.
Proof.
  split.
  - apply (refresh_scope_accepted (H:=ref_env) (t0 + 60)
             (update_claims (sub_claim "a@x.com") t0 (t0 + 600) "refresh_token")).
    + by vm_compute.
    + by vm_compute.
  - refine (eq_trans
              (refresh_scope_accepted (H:=ref_env) (t0 + 60)
                 (update_claims ∅ t0 (t0 + 600) "refresh_token") _ _) _);
      by vm_compute.
Defined.

End auth_more.

(** ** Updates of the user directory, registration and the avatar route *)

Module users_more.
Import users_repo authservice creation vocabulary samples.

(** What identifies a stored user. *)
Definition identity (u : User) : Z * string := (user_pk u, user_email u).

(** The columns of a user other than the avatar, other than the refresh
    token, and other than the two tokens. *)
Definition but_avatar (u : User) :=
  (user_pk u, user_email u, password u, is_activated u,
   refresh_token u, reset_token u, created_at u).

Definition but_refresh_token (u : User) :=
  (user_pk u, user_email u, password u, is_activated u,
   avatar u, reset_token u, created_at u).

Definition but_tokens (u : User) :=
  (user_pk u, user_email u, password u, is_activated u, avatar u, created_at u).

Lemma commit_user_fmap {B : Type} (g : User → B) (email : string) (f : User → User)
    (db : list User) :
  (∀ u, g (f u) = g u) → g <$> commit_user email f db = g <$> db.
Proof.
  intros Hg. induction db as [|u db IH]; [done|]. cbn [commit_user].
  case_bool_decide; rewrite !fmap_cons; [by rewrite Hg|by rewrite IH].
Qed.

(** Two commits to the row of one e-mail are one commit of the composition. *)
Lemma commit_user_twice (email : string) (f g : User → User) (db : list User) :
  (∀ u, user_email (g u) = user_email u) →
  commit_user email f (commit_user email g db) = commit_user email (f ∘ g) db.
Proof.
  intros Hg. induction db as [|u db IH]; [done|]. cbn [commit_user].
  case_bool_decide as Hu; cbn [commit_user].
  - by rewrite Hg, bool_decide_eq_true_2.
  - by rewrite bool_decide_eq_false_2, IH.
Qed.

Lemma commit_user_ext (email : string) (f g : User → User) (db : list User) :
  (∀ u, f u = g u) → commit_user email f db = commit_user email g db.
Proof.
  intros Hfg. induction db as [|u db IH]; [done|]. cbn [commit_user].
  by rewrite Hfg, IH.
Qed.

(** The lookup in a table with one more row at its end. *)
Lemma lookup_snoc (email : string) (db : list User) (u : User) :
  repo_user_authentication_by_email email (db ++ [u])
  = match repo_user_authentication_by_email email db with
    | Some x => Some x
    | None => if bool_decide (user_email u = email) then Some u else None
    end.
Proof.
  unfold repo_user_authentication_by_email.
  induction db as [|x db IH]; cbn [app find]; [done|].
  by destruct (bool_decide (user_email x = email)).
Qed.

(** X7.  No update of the user directory adds, removes or re-identifies a
    user: after [confirmed_email], [update_avatar],
    [repo_update_refresh_token] and [add_reset_token_to_db] the table has the
    same keys and e-mails, row by row, whether the call succeeded or not. *)
Theorem user_updates_keep_identities
    (user : User) (email token url : string) (db : list User) :
  identity <$> snd (confirmed_email email db) = identity <$> db
  ∧ identity <$> snd (update_avatar email url db) = identity <$> db
  ∧ identity <$> snd (repo_update_refresh_token user token db) = identity <$> db
  ∧ identity <$> snd (add_reset_token_to_db user token db) = identity <$> db.
Proof.
  unfold confirmed_email, update_avatar, repo_update_refresh_token,
    add_reset_token_to_db.
  repeat split;
    try destruct (repo_user_authentication_by_email email db); cbn [snd];
    try done; by apply commit_user_fmap.
Qed.

(** X8.  Rotation of the refresh token: after
    [repo_update_refresh_token] the user stored under the e-mail has the new
    token in [refresh_token] and every other column as before, the users of
    other e-mails are untouched, and a second rotation overwrites the first:
    the stored token is then the second one, and the table is as if only the
    second rotation had been made. *)
Theorem refresh_token_rotation (user : User) (t1 t2 : string) (db : list User) :
  repo_user_authentication_by_email (user_email user) db = Some user →
  (∃ stored,
      repo_user_authentication_by_email (user_email user)
        (snd (repo_update_refresh_token user t1 db)) = Some stored
      ∧ refresh_token stored = Some t1
      ∧ but_refresh_token stored = but_refresh_token user)
  ∧ (∀ email', email' ≠ user_email user →
       repo_user_authentication_by_email email'
         (snd (repo_update_refresh_token user t1 db))
       = repo_user_authentication_by_email email' db)
  ∧ (∃ stored,
       repo_user_authentication_by_email (user_email user)
         (snd (repo_update_refresh_token user t2
                 (snd (repo_update_refresh_token user t1 db)))) = Some stored
       ∧ refresh_token stored = Some t2
       ∧ but_refresh_token stored = but_refresh_token user)
  ∧ snd (repo_update_refresh_token user t2
           (snd (repo_update_refresh_token user t1 db)))
    = snd (repo_update_refresh_token user t2 db).
Proof.
  intros Hfind. unfold repo_update_refresh_token. cbn [snd].
  assert (Htwice : commit_user (user_email user) (set_refresh_token (Some t2))
                     (commit_user (user_email user) (set_refresh_token (Some t1)) db)
                   = commit_user (user_email user) (set_refresh_token (Some t2)) db).
  { rewrite commit_user_twice by done. by apply commit_user_ext. }
  split; [|split; [|split; [|done]]].
  - exists (set_refresh_token (Some t1) user).
    split; [by apply users_facts.lookup_commit_user|done].
  - intros email' Hne. by apply users_facts.lookup_commit_user_ne.
  - exists (set_refresh_token (Some t2) user). rewrite Htwice.
    split; [by apply users_facts.lookup_commit_user|done].
Qed.

(** X9.  [update_avatar]: for the e-mail of a stored user it returns that
    user with [src_url] in [avatar] and every other column as before, which
    is then what the table holds under the e-mail, the other users being
    untouched; for an e-mail that no user has it raises [AttributeError] and
    changes nothing. *)
Theorem update_avatar_spec (email src_url : string) (db : list User) :
  (∀ user, repo_user_authentication_by_email email db = Some user →
     ∃ updated db',
       update_avatar email src_url db = (inr updated, db')
       ∧ avatar updated = Some src_url
       ∧ but_avatar updated = but_avatar user
       ∧ repo_user_authentication_by_email email db' = Some updated
       ∧ ∀ email', email' ≠ email →
           repo_user_authentication_by_email email' db'
           = repo_user_authentication_by_email email' db)
  ∧ (repo_user_authentication_by_email email db = None →
     ∃ msg, update_avatar email src_url db = (inl (AttributeError msg), db)).
Proof.
  split.
  - intros user Hfind. unfold update_avatar. rewrite Hfind.
    rewrite (users_facts.lookup_email _ _ _ Hfind).
    eexists _, _. split; [reflexivity|]. do 2 (split; [done|]). split.
    + by apply users_facts.lookup_commit_user.
    + intros email' Hne. by apply users_facts.lookup_commit_user_ne.
  - intros Hnone. unfold update_avatar. rewrite Hnone. by eexists.
Qed.

(** X10.  The reset token and the refresh token are stored independently:
    [add_reset_token_to_db] and [repo_update_refresh_token] commute, and
    after both the user stored under the e-mail has the one in [reset_token],
    the other in [refresh_token], and every other column as before. *)
Theorem reset_and_refresh_commute (user : User) (reset refresh : string) (db : list User) :
  repo_user_authentication_by_email (user_email user) db = Some user →
  snd (add_reset_token_to_db user reset (snd (repo_update_refresh_token user refresh db)))
  = snd (repo_update_refresh_token user refresh (snd (add_reset_token_to_db user reset db)))
  ∧ ∃ stored,
      repo_user_authentication_by_email (user_email user)
        (snd (add_reset_token_to_db user reset
                (snd (repo_update_refresh_token user refresh db)))) = Some stored
      ∧ reset_token stored = Some reset
      ∧ refresh_token stored = Some refresh
      ∧ but_tokens stored = but_tokens user.
Proof.
  intros Hfind. unfold add_reset_token_to_db, repo_update_refresh_token. cbn [snd].
  rewrite !commit_user_twice by done. split.
  - by apply commit_user_ext.
  - exists (set_reset_token (Some reset) (set_refresh_token (Some refresh) user)).
    split; [|done].
    by apply (users_facts.lookup_commit_user (user_email user)
                (set_reset_token (Some reset) ∘ set_refresh_token (Some refresh))).
Qed.

Section with_env.
Context `{AuthEnv}.

(** The user that [get_current_user] returns is the one stored under its
    e-mail. *)
Lemma current_user_is_stored (now : Z) (token : string) (db : list User) (user : User) :
  get_current_user now token db = inr user →
  repo_user_authentication_by_email (user_email user) db = Some user.
Proof.
  unfold get_current_user. intros Hu.
  destruct (get_current_user_email now token) as [e|[|n|s]]; try done.
  destruct (repo_user_authentication_by_email s db) as [u|] eqn:Hfind; [|done].
  injection Hu as ->. by rewrite (users_facts.lookup_email _ _ _ Hfind).
Qed.

Lemma current_user_error (now : Z) (token : string) (db : list User) (e : exn) :
  get_current_user now token db = inl e → e = credentials_exception.
Proof.
  unfold get_current_user. intros He.
  destruct (get_current_user_email now token) as [e'|email] eqn:Hemail.
  - apply auth_facts.try_block_raises in Hemail as ->. by inversion He.
  - destruct email as [|n|s]; try by inversion He.
    destruct (repo_user_authentication_by_email s db); by inversion He.
Qed.

(** X11.  Registration: for an e-mail that is not in the table,
    [repo_create_user] stores a user that the lookup then finds under that
    e-mail, not yet activated, with the avatar of [get_image] and a refresh
    token; the other users are untouched.  That stored refresh token
    authenticates the new user at [get_current_user] for seven days, and
    [decode_refresh_token] refuses it at any time. *)
Theorem registration_spec
    (get_image : string → string) (new_pk now : Z) (body : UserCreate) (db : list User) :
  repo_user_authentication_by_email (new_email body) db = None →
  ∃ user token,
    repo_create_user get_image new_pk now body db = (inr user, (db ++ [user])%list)
    ∧ repo_user_authentication_by_email (new_email body) (db ++ [user])%list = Some user
    ∧ is_activated user = false
    ∧ avatar user = Some (get_image (new_email body))
    ∧ refresh_token user = Some token
    ∧ (∀ email', email' ≠ new_email body →
         repo_user_authentication_by_email email' (db ++ [user])%list
         = repo_user_authentication_by_email email' db)
    ∧ (∀ clock, clock ≤ now + 7 * 24 * 60 * 60 →
         get_current_user clock token (db ++ [user])%list = inr user)
    ∧ (∀ clock, ∃ detail headers,
         decode_refresh_token clock token = inl (HTTPException 401 detail headers)).
Proof.
  intros Hfresh. unfold repo_create_user.
  eexists _, _. split; [reflexivity|].
  assert (Hstored : repo_user_authentication_by_email (new_email body)
            (db ++ [mkUser new_pk (new_email body) (new_password body) false
                      (Some (get_image (new_email body)))
                      (Some (create_refresh_token now (sub_claim (new_email body)) None))
                      None now])%list
          = Some (mkUser new_pk (new_email body) (new_password body) false
                    (Some (get_image (new_email body)))
                    (Some (create_refresh_token now (sub_claim (new_email body)) None))
                    None now)).
  { rewrite lookup_snoc, Hfresh. cbn. by rewrite bool_decide_eq_true_2. }
  repeat split; try done.
  - intros email' Hne. rewrite lookup_snoc.
    destruct (repo_user_authentication_by_email email' db); [done|].
    cbn. by rewrite bool_decide_eq_false_2.
  - intros clock Hle. unfold get_current_user, create_refresh_token in *.
    rewrite auth_facts.access_scope_accepted by (unfold expiry; lia).
    cbn beta iota. by rewrite Hstored.
  - intros clock. unfold create_refresh_token.
    apply auth_facts.refresh_refuses_scope.
    by rewrite auth_facts.lookup_update_claims_scope.
Qed.

(** X12.  [PATCH /avatar].  When the route fails nothing is stored, and the
    error is either the 401 of [get_current_user] or what the upload
    raised; the [AttributeError] of [update_avatar] cannot occur, since the
    caller has just been found in the table.  When it succeeds, the caller
    was authenticated, the upload gave a URL, the user returned has that URL
    in [avatar] and every other column of the caller, and it is what the
    table now holds under the caller's e-mail. *)
Theorem avatar_route_spec
    (upload : string → exn + string) (now : Z) (token : string) (db : list User) :
  (∀ e db', update_user_avatar upload now token db = (inl e, db') →
     db' = db
     ∧ (e = credentials_exception
        ∨ ∃ current, get_current_user now token db = inr current
                     ∧ upload (user_email current) = inl e))
  ∧ (∀ user db', update_user_avatar upload now token db = (inr user, db') →
       ∃ current src_url,
         get_current_user now token db = inr current
         ∧ upload (user_email current) = inr src_url
         ∧ avatar user = Some src_url
         ∧ but_avatar user = but_avatar current
         ∧ repo_user_authentication_by_email (user_email current) db' = Some user
         ∧ ∀ email', email' ≠ user_email current →
             repo_user_authentication_by_email email' db'
             = repo_user_authentication_by_email email' db).
Proof.
  unfold update_user_avatar.
  destruct (get_current_user now token db) as [e0|current] eqn:Hcur.
  - apply current_user_error in Hcur as ->. split.
    + intros e db' [= <- <-]. split; [done|by left].
    + intros user db' [=].
  - pose proof (current_user_is_stored _ _ _ _ Hcur) as Hstored.
    destruct (upload (user_email current)) as [e1|src_url] eqn:Hup.
    + split.
      * intros e db' [= <- <-]. split; [done|]. right. by exists current.
      * intros user db' [=].
    + unfold update_avatar. rewrite Hstored. split.
      * intros e db' [=].
      * intros user db' [= <- <-]. exists current, src_url.
        repeat split; try done.
        -- by apply users_facts.lookup_commit_user.
        -- intros email' Hne. by apply users_facts.lookup_commit_user_ne.
Qed.

End with_env.

Lemma refresh_token_rotation_witness :
  ∃ stored,
    repo_user_authentication_by_email "b@x.com"
      (snd (repo_update_refresh_token bob "r2"
              (snd (repo_update_refresh_token bob "r1" [alice; bob])))) = Some stored
    ∧ refresh_token stored = Some "r2"
    ∧ but_refresh_token stored = but_refresh_token bob.
Proof.
  apply (refresh_token_rotation bob "r1" "r2" [alice; bob]). reflexivity.
Defined.

Lemma update_avatar_spec_witness :
  (∃ updated db',
      update_avatar "b@x.com" "https://img/b.png" [alice; bob] = (inr updated, db')
      ∧ avatar updated = Some "https://img/b.png"
      ∧ but_avatar updated = but_avatar bob
      ∧ repo_user_authentication_by_email "b@x.com" db' = Some updated
      ∧ ∀ email', email' ≠ "b@x.com" →
          repo_user_authentication_by_email email' db'
          = repo_user_authentication_by_email email' [alice; bob])
  ∧ ∃ msg, update_avatar "ghost@x.com" "https://img/b.png" [alice; bob]
           = (inl (AttributeError msg), [alice; bob]).
Proof.
  split.
  - apply (proj1 (update_avatar_spec "b@x.com" "https://img/b.png" [alice; bob]) bob).
    reflexivity.
  - apply (proj2 (update_avatar_spec "ghost@x.com" "https://img/b.png" [alice; bob])).
    reflexivity.
Defined.

Lemma reset_and_refresh_commute_witness :
  ∃ stored,
    repo_user_authentication_by_email "b@x.com"
      (snd (add_reset_token_to_db bob "reset"
              (snd (repo_update_refresh_token bob "refresh" [alice; bob])))) = Some stored
    ∧ reset_token stored = Some "reset"
    ∧ refresh_token stored = Some "refresh"
    ∧ but_tokens stored = but_tokens bob.
Proof.
  apply (reset_and_refresh_commute bob "reset" "refresh" [alice; bob]). reflexivity.
Defined.

Lemma registration_spec_witness :
  ∃ user token,
    repo_create_user (H:=ref_env) (λ e, "https://gravatar/" +:+ e) 2 t0
      (mkUserCreate "b@x.com" "pw123") [alice]
    = (inr user, ([alice] ++ [user])%list)
    ∧ repo_user_authentication_by_email "b@x.com" ([alice] ++ [user])%list = Some user
    ∧ is_activated user = false
    ∧ avatar user = Some ("https://gravatar/" +:+ "b@x.com")
    ∧ refresh_token user = Some token
    ∧ (∀ email', email' ≠ "b@x.com" →
         repo_user_authentication_by_email email' ([alice] ++ [user])%list
         = repo_user_authentication_by_email email' [alice])
    ∧ (∀ clock, clock ≤ t0 + 7 * 24 * 60 * 60 →
         get_current_user (H:=ref_env) clock token ([alice] ++ [user])%list = inr user)
    ∧ (∀ clock, ∃ detail headers,
         decode_refresh_token (H:=ref_env) clock token
         = inl (HTTPException 401 detail headers)).
Proof.
  apply (registration_spec (H:=ref_env) (λ e, "https://gravatar/" +:+ e) 2 t0
           (mkUserCreate "b@x.com" "pw123") [alice]).
  reflexivity.
Defined.

(** An upload that succeeds. *)
Definition upload_ok : string → exn + string := λ _, inr "https://img/a.png".

(** [alice] once the upload is stored. *)
Definition alice_with_avatar : User :=
  mkUser 1 "a@x.com" "$2b$12$hash" true (Some "https://img/a.png") None None
         1700000000.

Lemma avatar_route_spec_witness :
  ∃ current src_url,
    get_current_user (H:=ref_env) (t0 + 60) alice_access [alice; bob] = inr current
    ∧ upload_ok (user_email current) = inr src_url
    ∧ avatar alice_with_avatar = Some src_url
    ∧ but_avatar alice_with_avatar = but_avatar current
    ∧ repo_user_authentication_by_email (user_email current) [alice_with_avatar; bob]
      = Some alice_with_avatar
    ∧ ∀ email', email' ≠ user_email current →
        repo_user_authentication_by_email email' [alice_with_avatar; bob]
        = repo_user_authentication_by_email email' [alice; bob].
Proof.
  apply (proj2 (avatar_route_spec (H:=ref_env) upload_ok
                  (t0 + 60) alice_access [alice; bob])).
  by vm_compute.
Defined.

End users_more.

(** ** Pages, search, and the life of a contact *)

Module contacts_more.
Import contacts_repo creation vocabulary samples string_facts.

#[local] Instance id_le_total : Total id_le.
Proof. intros a b. unfold id_le. lia. Qed.

#[local] Instance id_le_trans : Transitive id_le.
Proof. intros a b c. unfold id_le. lia. Qed.

Lemma select_page_sorted (cond : Contact → bool) (limit offset : nat) (db : list Contact) :
  StronglySorted id_le (select_page cond limit offset db).
Proof.
  unfold select_page.
  pose proof (StronglySorted_merge_sort id_le (List.filter cond db)) as Hs.
  rewrite <- (take_drop offset (merge_sort id_le (List.filter cond db))) in Hs.
  apply StronglySorted_app_1_r in Hs.
  rewrite <- (take_drop limit (drop offset _)) in Hs.
  by apply StronglySorted_app_1_l in Hs.
Qed.

Lemma select_page_sound (cond : Contact → bool) (limit offset : nat)
    (db : list Contact) (c : Contact) :
  c ∈ select_page cond limit offset db → c ∈ db ∧ cond c = true.
Proof.
  unfold select_page. intros Hc.
  apply subseteq_take, subseteq_drop in Hc.
  rewrite merge_sort_Permutation in Hc.
  apply list_elem_of_In, filter_In in Hc as [Hin Hcond].
  by apply list_elem_of_In in Hin.
Qed.

Lemma select_page_length (cond : Contact → bool) (limit offset : nat) (db : list Contact) :
  (length (select_page cond limit offset db) ≤ limit)%nat.
Proof. unfold select_page. rewrite length_take. lia. Qed.

Lemma select_page_next (cond : Contact → bool) (n m k : nat) (db : list Contact) :
  (select_page cond n k db ++ select_page cond m (k + n) db)%list
  = select_page cond (n + m) k db.
Proof. unfold select_page. by rewrite <- drop_drop, take_take_drop. Qed.

(** X13.  [repo_get_contacts] returns contacts of the table that belong to
    the user, in ascending order of id, at most [limit] of them; and with no
    offset and a limit as large as the table it returns every contact of the
    user. *)
Theorem listing_sorted_owned_bounded
    (db : list Contact) (user : User) (limit offset : nat) :
  StronglySorted id_le (repo_get_contacts db user limit offset)
  ∧ (∀ c, c ∈ repo_get_contacts db user limit offset →
          c ∈ db ∧ user_id c = user_pk user)
  ∧ (length (repo_get_contacts db user limit offset) ≤ limit)%nat
  ∧ (∀ c, c ∈ repo_get_contacts db user (length db) 0
          ↔ c ∈ db ∧ user_id c = user_pk user).
Proof.
  unfold repo_get_contacts. split; [apply select_page_sorted|].
  split; [|split; [apply select_page_length|]].
  - intros c [Hin Hown%bool_decide_eq_true]%select_page_sound. done.
  - intros c. by rewrite contacts_facts.select_page_all, bool_decide_eq_true.
Qed.

(** X14.  Pages follow one another: for the listing and for the search, the
    page of [n] rows at offset [k] followed by the page of [m] rows at
    offset [k + n] is the page of [n + m] rows at offset [k]; no row is
    skipped or repeated between consecutive pages. *)
Theorem consecutive_pages_concatenate
    (db : list Contact) (user : User) (query : string) (n m k : nat) :
  (repo_get_contacts db user n k ++ repo_get_contacts db user m (k + n))%list
  = repo_get_contacts db user (n + m) k
  ∧ (repo_get_contacts_query user query n k db
     ++ repo_get_contacts_query user query m (k + n) db)%list
    = repo_get_contacts_query user query (n + m) k db.
Proof.
  unfold repo_get_contacts, repo_get_contacts_query.
  split; apply select_page_next.
Qed.

(** X15.  Whatever the query, [repo_get_contacts_query] returns contacts of
    the user only, in ascending order of id, at most [limit] of them, and
    each of them is in the user's full listing. *)
Theorem search_sorted_owned_bounded
    (db : list Contact) (user : User) (query : string) (limit offset : nat) :
  StronglySorted id_le (repo_get_contacts_query user query limit offset db)
  ∧ (length (repo_get_contacts_query user query limit offset db) ≤ limit)%nat
  ∧ ∀ c, c ∈ repo_get_contacts_query user query limit offset db →
         user_id c = user_pk user
         ∧ c ∈ repo_get_contacts db user (length db) 0.
Proof.
  unfold repo_get_contacts_query, repo_get_contacts.
  split; [apply select_page_sorted|]. split; [apply select_page_length|].
  intros c [Hin Hm]%select_page_sound.
  unfold matches_query in Hm. apply andb_true_iff in Hm as [Hown _].
  split; [by apply bool_decide_eq_true in Hown|].
  by apply contacts_facts.select_page_all.
Qed.

(** [%q%] for a literal [q]: the string has [q] somewhere. *)
Lemma like_literal_inside (q s : string) :
  sql.literal q = true →
  sql.like ("%" +:+ q +:+ "%") s = true ↔ ∃ a b, s = a +:+ q +:+ b.
Proof.
  intros Hq. rewrite sapp_cons, sapp_empty, contacts_facts.like_percent. split.
  - intros (a & s1 & -> & H1).
    apply (contacts_facts.like_literal q) in H1 as (b & -> & _); [|done].
    by exists a, b.
  - intros (a & b & ->). exists a, (q +:+ b). split; [done|].
    apply contacts_facts.like_literal; [done|]. exists b. split; [done|].
    apply contacts_facts.like_percent_all.
Qed.

(** X16.  On ASCII text, a query without wildcard characters is a
    case-insensitive substring search: it selects exactly the user's
    contacts whose first name, last name or e-mail, in lower case, contains
    the query in lower case; and two ASCII queries that differ in case only
    give the same pages. *)
Theorem literal_query_is_substring_search
    (user : User) (q : string) (c : Contact) (db : list Contact) :
  text.ascii_only q = true →
  forallb text.ascii_only (searched_fields c) = true →
  sql.literal q = true →
  (c ∈ repo_get_contacts_query user q (length db) 0 db
   ↔ c ∈ db ∧ user_id c = user_pk user
     ∧ ∃ f, f ∈ searched_fields c
            ∧ ∃ a b, sql.lower f = a +:+ sql.lower q +:+ b)
  ∧ ∀ q' limit offset, text.ascii_only q' = true → sql.lower q' = sql.lower q →
      repo_get_contacts_query user q' limit offset db
      = repo_get_contacts_query user q limit offset db.
Proof.
  intros _ _ Hq%contacts_facts.literal_lower. unfold repo_get_contacts_query. split.
  - rewrite contacts_facts.select_page_all, !contacts_facts.lower_app.
    change (sql.lower "%") with "%".
    rewrite (contacts_facts.matches_query_iff user _ c
               (λ s, ∃ a b, s = a +:+ sql.lower q +:+ b)); [done|].
    intros s. by apply like_literal_inside.
  - intros q' limit offset _ Hlow. by rewrite !contacts_facts.lower_app, Hlow.
Qed.

Lemma literal_query_is_substring_search_witness :
  axel ∈ repo_get_contacts_query alice "XyZ" 3 0 [john; axel; leap_baby].
Proof.
  apply (proj1 (literal_query_is_substring_search alice "XyZ" axel
                  [john; axel; leap_baby] eq_refl eq_refl eq_refl)).
  split; [right; by left|]. split; [reflexivity|].
  exists "aXYZb". split; [by left|]. by exists "a", "b".
Defined.

(** *** Get, update, delete, create *)

Lemma get_specific_some (cid : Z) (user : User) (db : list Contact) (c : Contact) :
  get_specific_contact_belongs_to_user cid user db = Some c →
  c ∈ db ∧ id c = cid ∧ user_id c = user_pk user.
Proof.
  unfold get_specific_contact_belongs_to_user. intros Hf.
  apply find_some in Hf as [Hin Hc]. unfold owned_with_id in Hc.
  apply andb_true_iff in Hc as [Hown%bool_decide_eq_true Hid%bool_decide_eq_true].
  split; [by apply list_elem_of_In|done].
Qed.

Lemma get_specific_complete (cid : Z) (user : User) (db : list Contact) (c : Contact) :
  primary_key db → c ∈ db → id c = cid → user_id c = user_pk user →
  get_specific_contact_belongs_to_user cid user db = Some c.
Proof.
  intros Hpk Hin Hid Hown.
  destruct (get_specific_contact_belongs_to_user cid user db) as [c'|] eqn:Hf.
  - apply get_specific_some in Hf as (Hin' & Hid' & _).
    f_equal. apply (contacts_facts.primary_key_unique db); congruence.
  - unfold get_specific_contact_belongs_to_user in Hf.
    apply list_elem_of_In in Hin. pose proof (find_none _ _ Hf c Hin) as Hc.
    unfold owned_with_id in Hc. by rewrite !bool_decide_eq_true_2 in Hc.
Qed.

(** The commit leaves alone what another id, or another owner, looks up. *)
Lemma get_specific_commit_other (cid cid' : Z) (user user' : User)
    (f : Contact → option Contact) (db : list Contact) :
  (∀ c c', f c = Some c' → id c' = id c ∧ user_id c' = user_id c) →
  cid' ≠ cid ∨ user_pk user' ≠ user_pk user →
  get_specific_contact_belongs_to_user cid' user' (commit_contact cid user f db)
  = get_specific_contact_belongs_to_user cid' user' db.
Proof.
  intros Hf Hother. unfold get_specific_contact_belongs_to_user.
  induction db as [|x db IH]; [done|]. cbn [commit_contact find].
  destruct (owned_with_id cid user x) eqn:Hx.
  - unfold owned_with_id in Hx.
    apply andb_true_iff in Hx as [Hown%bool_decide_eq_true Hid%bool_decide_eq_true].
    assert (Hnot : ∀ y, id y = id x → user_id y = user_id x →
                        owned_with_id cid' user' y = false).
    { intros y Hy1 Hy2. unfold owned_with_id. apply andb_false_iff.
      destruct Hother; [right|left]; apply bool_decide_eq_false; congruence. }
    rewrite (Hnot x) by done.
    destruct (f x) as [x'|] eqn:Hfx; [|done].
    cbn [find]. destruct (Hf _ _ Hfx). by rewrite (Hnot x').
  - cbn [find]. by rewrite IH.
Qed.

Lemma get_specific_commit_some (cid : Z) (user : User) (g : Contact → Contact)
    (db : list Contact) (c : Contact) :
  (∀ x, id (g x) = id x ∧ user_id (g x) = user_id x) →
  get_specific_contact_belongs_to_user cid user db = Some c →
  get_specific_contact_belongs_to_user cid user
    (commit_contact cid user (λ x, Some (g x)) db)
  = Some (g c).
Proof.
  intros Hg. unfold get_specific_contact_belongs_to_user.
  induction db as [|x db IH]; [done|]. cbn [commit_contact find].
  destruct (owned_with_id cid user x) eqn:Hx.
  - intros [= ->]. cbn [find].
    replace (owned_with_id cid user (g c)) with true; [done|].
    unfold owned_with_id in *. destruct (Hg c) as [-> ->]. done.
  - intros Hfind. cbn [find]. rewrite Hx. auto.
Qed.

Lemma get_specific_commit_none (cid : Z) (user : User) (db : list Contact) (c : Contact) :
  primary_key db →
  get_specific_contact_belongs_to_user cid user db = Some c →
  get_specific_contact_belongs_to_user cid user (commit_contact cid user (λ _, None) db)
  = None.
Proof.
  unfold primary_key, get_specific_contact_belongs_to_user.
  induction db as [|x db IH]; [done|]. rewrite fmap_cons, NoDup_cons.
  intros [Hx Hnd]. cbn [commit_contact find].
  destruct (owned_with_id cid user x) eqn:Hox.
  - intros _. unfold owned_with_id in Hox.
    apply andb_true_iff in Hox as [_ Hid%bool_decide_eq_true].
    apply contacts_facts.get_specific_none. intros y Hy Hidy.
    destruct Hx. rewrite Hid, <- Hidy. by apply list_elem_of_fmap_2.
  - intros Hfind. cbn [find]. rewrite Hox. auto.
Qed.

Lemma commit_contact_fmap {B : Type} (h : Contact → B) (cid : Z) (user : User)
    (g : Contact → Contact) (db : list Contact) :
  (∀ x, h (g x) = h x) →
  h <$> commit_contact cid user (λ x, Some (g x)) db = h <$> db.
Proof.
  intros Hh. induction db as [|x db IH]; [done|]. cbn [commit_contact].
  destruct (owned_with_id cid user x); rewrite !fmap_cons; [by rewrite Hh|by rewrite IH].
Qed.

Lemma commit_contact_delete_length (cid : Z) (user : User) (db : list Contact) (c : Contact) :
  get_specific_contact_belongs_to_user cid user db = Some c →
  length db = S (length (commit_contact cid user (λ _, None) db)).
Proof.
  unfold get_specific_contact_belongs_to_user.
  induction db as [|x db IH]; [done|]. cbn [commit_contact find].
  destruct (owned_with_id cid user x); [done|].
  intros Hfind. cbn [length]. by rewrite <- IH.
Qed.

(** X17.  [repo_get_contact_by_id] returns only a contact of the table that
    has the id and belongs to the user; and, the id being a primary key, it
    does return the user's contact of that id when there is one. *)
Theorem get_contact_by_id_spec (cid : Z) (user : User) (db : list Contact) :
  (∀ c, repo_get_contact_by_id cid user db = inr c →
        c ∈ db ∧ id c = cid ∧ user_id c = user_pk user)
  ∧ (primary_key db →
     ∀ c, c ∈ db → id c = cid → user_id c = user_pk user →
          repo_get_contact_by_id cid user db = inr c).
Proof.
  unfold repo_get_contact_by_id. split.
  - intros c Hc.
    destruct (get_specific_contact_belongs_to_user cid user db) as [c'|] eqn:Hf;
      [|done].
    injection Hc as ->. by apply get_specific_some.
  - intros Hpk c Hin Hid Hown. by rewrite (get_specific_complete cid user db c).
Qed.

(** X18.  A successful update.  For the user's contact [c] of id [cid],
    [repo_update_contact_db] returns a contact with the id and the owner of
    [c] in which every field that the request sets has the value of the
    request and every other field the value it has in [c]; that contact is
    what a get of the same id then returns; the ids and owners of the table
    are the same, row by row, and what any other id, or any other user, gets
    is unchanged. *)
Theorem update_contact_spec
    (cid : Z) (user : User) (body : ContactUpdate) (db : list Contact) (c : Contact) :
  primary_key db → c ∈ db → id c = cid → user_id c = user_pk user →
  ∃ updated db',
    repo_update_contact_db cid user body db = (inr updated, db')
    ∧ id updated = id c ∧ user_id updated = user_id c
    ∧ first_name updated = default (first_name c) (upd_first_name body)
    ∧ last_name updated = default (last_name c) (upd_last_name body)
    ∧ email updated = default (email c) (upd_email body)
    ∧ phone updated = default (phone c) (upd_phone body)
    ∧ b_day updated = default (b_day c) (upd_b_day body)
    ∧ note updated = default (note c) (upd_note body)
    ∧ repo_get_contact_by_id cid user db' = inr updated
    ∧ id <$> db' = id <$> db
    ∧ user_id <$> db' = user_id <$> db
    ∧ ∀ cid' user', cid' ≠ cid ∨ user_pk user' ≠ user_pk user →
        repo_get_contact_by_id cid' user' db' = repo_get_contact_by_id cid' user' db.
Proof.
  intros Hpk Hin Hid Hown.
  pose proof (get_specific_complete cid user db c Hpk Hin Hid Hown) as Hfind.
  unfold repo_update_contact_db, repo_get_contact_by_id. rewrite Hfind.
  eexists _, _. split; [reflexivity|]. do 8 (split; [reflexivity|]). repeat split.
  - by rewrite (get_specific_commit_some cid user (apply_update body) db c).
  - by apply commit_contact_fmap.
  - by apply commit_contact_fmap.
  - intros cid' user' Hother. rewrite get_specific_commit_other; [done| |done].
    by intros x x' [= <-].
Qed.

(** X19.  An update that sets no field changes nothing: it returns the
    contact as it is stored and leaves the table as it was. *)
Theorem empty_update_is_noop (cid : Z) (user : User) (db : list Contact) (c : Contact) :
  get_specific_contact_belongs_to_user cid user db = Some c →
  repo_update_contact_db cid user (mkContactUpdate None None None None None None) db
  = (inr c, db).
Proof.
  intros Hfind. unfold repo_update_contact_db. rewrite Hfind.
  assert (Hid : ∀ x, apply_update (mkContactUpdate None None None None None None) x = x)
    by (by intros []).
  rewrite Hid. f_equal. clear Hfind.
  induction db as [|x db IH]; [done|]. cbn [commit_contact].
  destruct (owned_with_id cid user x); [by rewrite Hid|by rewrite IH].
Qed.

(** X20.  A successful delete.  For the user's contact [c] of id [cid],
    [repo_delete_contact_db] answers with the message that carries the first
    and last name of [c], the table has one row less, what any other id or
    any other user gets is unchanged, and the contact is gone: a get of the
    id, and a second delete, answer 404. *)
Theorem delete_contact_spec (cid : Z) (user : User) (db : list Contact) (c : Contact) :
  primary_key db → c ∈ db → id c = cid → user_id c = user_pk user →
  ∃ db',
    repo_delete_contact_db cid user db
    = (inr ("Contact '" +:+ (first_name c +:+ " " +:+ last_name c)
            +:+ "' successfully deleted"), db')
    ∧ length db = S (length db')
    ∧ repo_get_contact_by_id cid user db' = inl not_found
    ∧ repo_delete_contact_db cid user db' = (inl not_found, db')
    ∧ ∀ cid' user', cid' ≠ cid ∨ user_pk user' ≠ user_pk user →
        repo_get_contact_by_id cid' user' db' = repo_get_contact_by_id cid' user' db.
Proof.
  intros Hpk Hin Hid Hown.
  pose proof (get_specific_complete cid user db c Hpk Hin Hid Hown) as Hfind.
  unfold repo_delete_contact_db, repo_get_contact_by_id. rewrite Hfind.
  eexists. split; [reflexivity|].
  rewrite (get_specific_commit_none cid user db c Hpk Hfind). repeat split.
  - by apply commit_contact_delete_length with c.
  - intros cid' user' Hother. by rewrite get_specific_commit_other.
Qed.

Lemma get_specific_snoc (cid : Z) (user : User) (db : list Contact) (x : Contact) :
  get_specific_contact_belongs_to_user cid user (db ++ [x])
  = match get_specific_contact_belongs_to_user cid user db with
    | Some c => Some c
    | None => if owned_with_id cid user x then Some x else None
    end.
Proof.
  unfold get_specific_contact_belongs_to_user.
  induction db as [|y db IH]; cbn [app find]; [done|].
  by destruct (owned_with_id cid user y).
Qed.

(** X21.  Creation, then get.  When the database gives the new row an id
    that no row has, [repo_create_new_contact] returns a contact with each of
    the six fields of the request, which belongs to the user; a get of that
    id by the
    user returns it, a get by any other user answers 404, what other ids get
    is unchanged, and the id is still a primary key of the table. *)
Theorem create_then_get
    (new_id : Z) (user : User) (body : ContactCreate) (db : list Contact) :
  absent new_id db →
  ∃ contact db',
    repo_create_new_contact new_id user body db = (inr contact, db')
    ∧ id contact = new_id ∧ user_id contact = user_pk user
    ∧ first_name contact = cc_first_name body ∧ last_name contact = cc_last_name body
    ∧ email contact = cc_email body ∧ phone contact = cc_phone body
    ∧ b_day contact = cc_b_day body ∧ note contact = cc_note body
    ∧ repo_get_contact_by_id new_id user db' = inr contact
    ∧ (∀ other, user_pk other ≠ user_pk user →
         repo_get_contact_by_id new_id other db' = inl not_found)
    ∧ (∀ cid' user', cid' ≠ new_id →
         repo_get_contact_by_id cid' user' db' = repo_get_contact_by_id cid' user' db)
    ∧ (primary_key db → primary_key db').
Proof.
  intros Hfresh. unfold repo_create_new_contact. eexists _, _.
  split; [reflexivity|]. do 8 (split; [reflexivity|]).
  assert (Hnone : ∀ u, get_specific_contact_belongs_to_user new_id u db = None).
  { intros u. apply contacts_facts.get_specific_none. intros c Hc Hid.
    by destruct (Hfresh c Hc). }
  unfold repo_get_contact_by_id. repeat split.
  - rewrite get_specific_snoc, Hnone. unfold owned_with_id. cbn.
    by rewrite !bool_decide_eq_true_2.
  - intros other Hother. rewrite get_specific_snoc, Hnone. unfold owned_with_id. cbn.
    by rewrite (bool_decide_eq_false_2 (user_pk user = user_pk other)).
  - intros cid' user' Hne. rewrite get_specific_snoc.
    destruct (get_specific_contact_belongs_to_user cid' user' db); [done|].
    unfold owned_with_id. cbn.
    by rewrite (bool_decide_eq_false_2 (new_id = cid')), andb_false_r.
  - unfold primary_key. rewrite fmap_app. cbn. intros Hpk.
    apply NoDup_app. split; [done|]. split; [|apply NoDup_singleton].
    intros i Hi Hi'. apply list_elem_of_singleton in Hi' as ->.
    apply list_elem_of_fmap in Hi as (c & Hid & Hc). by destruct (Hfresh c Hc).
Qed.

Lemma listing_sorted_owned_bounded_witness :
  axel ∈ [john; axel; leap_baby] ∧ user_id axel = user_pk alice.
Proof.
  apply (proj1 (proj2 (listing_sorted_owned_bounded [john; axel; leap_baby] alice 1 0))).
  apply (bool_decide_unpack _). by vm_compute.
Defined.

Lemma search_sorted_owned_bounded_witness :
  user_id leap_baby = user_pk alice
  ∧ leap_baby ∈ repo_get_contacts [john; axel; leap_baby] alice
                  (length [john; axel; leap_baby]) 0.
Proof.
  apply (proj2 (proj2 (search_sorted_owned_bounded [john; axel; leap_baby] alice
                         "DAY" 5 0))).
  apply (bool_decide_unpack _). by vm_compute.
Defined.

Lemma store : primary_key [john; axel; leap_baby].
Proof. unfold primary_key. apply (bool_decide_unpack _). by vm_compute. Qed.

Lemma get_contact_by_id_spec_witness :
  repo_get_contact_by_id 6 alice [john; axel; leap_baby] = inr axel.
Proof.
  apply (proj2 (get_contact_by_id_spec 6 alice [john; axel; leap_baby]) store axel).
  - right. by left.
  - reflexivity.
  - reflexivity.
Defined.

Lemma update_contact_spec_witness :
  ∃ updated db',
    repo_update_contact_db 6 alice
      (mkContactUpdate (Some "Axel") None None None None (Some (Some "met in Oslo")))
      [john; axel; leap_baby]
    = (inr updated, db')
    ∧ id updated = 6 ∧ user_id updated = 1
    ∧ first_name updated = "Axel"
    ∧ last_name updated = "Lee"
    ∧ email updated = "lee@mail.org"
    ∧ phone updated = "555-0101"
    ∧ b_day updated = mkDate 1990 3 1
    ∧ note updated = Some "met in Oslo"
    ∧ repo_get_contact_by_id 6 alice db' = inr updated
    ∧ id <$> db' = id <$> [john; axel; leap_baby]
    ∧ user_id <$> db' = user_id <$> [john; axel; leap_baby]
    ∧ ∀ cid' user', cid' ≠ 6 ∨ user_pk user' ≠ user_pk alice →
        repo_get_contact_by_id cid' user' db'
        = repo_get_contact_by_id cid' user' [john; axel; leap_baby].
Proof.
  refine (update_contact_spec 6 alice
            (mkContactUpdate (Some "Axel") None None None None
                             (Some (Some "met in Oslo")))
            [john; axel; leap_baby] axel store _ eq_refl eq_refl).
  right. by left.
Defined.

Lemma empty_update_is_noop_witness :
  repo_update_contact_db 6 alice (mkContactUpdate None None None None None None)
    [john; axel; leap_baby]
  = (inr axel, [john; axel; leap_baby]).
Proof.
  apply (empty_update_is_noop 6 alice [john; axel; leap_baby] axel). reflexivity.
Defined.

Lemma delete_contact_spec_witness :
  ∃ db',
    repo_delete_contact_db 5 bob [john; axel; leap_baby]
    = (inr ("Contact '" +:+ (first_name john +:+ " " +:+ last_name john)
            +:+ "' successfully deleted"), db')
    ∧ length [john; axel; leap_baby] = S (length db')
    ∧ repo_get_contact_by_id 5 bob db' = inl not_found
    ∧ repo_delete_contact_db 5 bob db' = (inl not_found, db')
    ∧ ∀ cid' user', cid' ≠ 5 ∨ user_pk user' ≠ user_pk bob →
        repo_get_contact_by_id cid' user' db'
        = repo_get_contact_by_id cid' user' [john; axel; leap_baby].
Proof.
  apply (delete_contact_spec 5 bob [john; axel; leap_baby] john store).
  - by left.
  - reflexivity.
  - reflexivity.
Defined.

(** The message of the delete, for the contact "John Doe". *)
Example delete_john_doe :
  fst (repo_delete_contact_db 5 bob [john; axel; leap_baby])
  = inr "Contact 'John Doe' successfully deleted".
Proof. by vm_compute. Qed.

Lemma create_then_get_witness :
  ∃ contact db',
    repo_create_new_contact 10 alice
      (mkContactCreate "Ann" "Lee" "ann@lee.org" "555-0103" (mkDate 1999 1 2) None)
      [john; axel; leap_baby]
    = (inr contact, db')
    ∧ id contact = 10 ∧ user_id contact = user_pk alice
    ∧ first_name contact = "Ann" ∧ last_name contact = "Lee"
    ∧ email contact = "ann@lee.org" ∧ phone contact = "555-0103"
    ∧ b_day contact = mkDate 1999 1 2 ∧ note contact = None
    ∧ repo_get_contact_by_id 10 alice db' = inr contact
    ∧ (∀ other, user_pk other ≠ user_pk alice →
         repo_get_contact_by_id 10 other db' = inl not_found)
    ∧ (∀ cid' user', cid' ≠ 10 →
         repo_get_contact_by_id cid' user' db'
         = repo_get_contact_by_id cid' user' [john; axel; leap_baby])
    ∧ (primary_key [john; axel; leap_baby] → primary_key db').
Proof.
  apply (create_then_get 10 alice
           (mkContactCreate "Ann" "Lee" "ann@lee.org" "555-0103" (mkDate 1999 1 2) None)
           [john; axel; leap_baby]).
  intros c Hc. by repeat (apply elem_of_cons in Hc as [->|Hc]);
    [..|apply elem_of_nil in Hc].
Defined.

End contacts_more.

(** ** The birthday window *)

Module birthdays_more.
Import contacts_repo vocabulary samples.

Lemma new_date_ok (y m d : Z) :
  datetime.MINYEAR ≤ y ≤ datetime.MAXYEAR → 1 ≤ m ≤ 12 →
  1 ≤ d ≤ datetime._days_in_month y m →
  datetime.new_date y m d = inr (mkDate y m d).
Proof.
  intros Hy Hm Hd. unfold datetime.new_date.
  rewrite (proj2 (Z.leb_le _ _) (proj1 Hy)), (proj2 (Z.leb_le _ _) (proj2 Hy)).
  rewrite (proj2 (Z.leb_le _ _) (proj1 Hm)), (proj2 (Z.leb_le _ _) (proj2 Hm)).
  by rewrite (proj2 (Z.leb_le _ _) (proj1 Hd)), (proj2 (Z.leb_le _ _) (proj2 Hd)).
Qed.

(** A day that a month has in one year it has in any other, 29 February
    apart. *)
Lemma days_in_month_other_year (y' y m d : Z) :
  d ≤ datetime._days_in_month y' m →
  datetime._is_leap y = true ∨ ¬ (m = 2 ∧ d = 29) →
  d ≤ datetime._days_in_month y m.
Proof.
  unfold datetime._days_in_month. intros Hd Hleap.
  destruct (Z.eqb_spec m 2) as [->|Hm]; cbn [andb]; [|done].
  destruct (datetime._is_leap y') eqn:Hy', (datetime._is_leap y) eqn:Hy;
    cbn in *; lia.
Qed.

Lemma projection_ok (today : date) (c : Contact) :
  valid_date today → valid_date (b_day c) →
  datetime._is_leap (year today) = true
  ∨ ¬ (month (b_day c) = 2 ∧ day (b_day c) = 29) →
  datetime.new_date (year today) (month (b_day c)) (day (b_day c))
  = inr (mkDate (year today) (month (b_day c)) (day (b_day c))).
Proof.
  intros (Hy & _ & _) (_ & Hm & Hd1 & Hd2) Hleap. apply new_date_ok; [done..|].
  split; [done|]. by apply days_in_month_other_year with (year (b_day c)).
Qed.

Lemma birthday_loop_ok (today end_date : date) (contacts answer : list Contact) :
  (∀ c, c ∈ contacts →
     datetime.new_date (year today) (month (b_day c)) (day (b_day c))
     = inr (mkDate (year today) (month (b_day c)) (day (b_day c)))) →
  birthday_loop today end_date contacts answer
  = inr (answer ++ List.filter (in_window today end_date) contacts)%list.
Proof.
  revert answer. induction contacts as [|x contacts IH]; intros answer Hok.
  - cbn. by rewrite app_nil_r.
  - cbn [birthday_loop List.filter]. rewrite (Hok x) by (by left).
    fold (in_window today end_date x).
    destruct (in_window today end_date x).
    + rewrite IH by (intros c Hc; apply Hok; by right).
      by rewrite <- app_assoc.
    + apply IH. intros c Hc. apply Hok. by right.
Qed.

Lemma birthday_loop_sound (today end_date : date) (contacts answer result : list Contact)
    (c : Contact) :
  birthday_loop today end_date contacts answer = inr result →
  c ∈ result →
  c ∈ answer ∨ (c ∈ contacts ∧ in_window today end_date c = true).
Proof.
  revert answer. induction contacts as [|x contacts IH]; intros answer.
  - cbn. intros [= <-] Hc. by left.
  - cbn [birthday_loop].
    destruct (datetime.new_date _ _ _) as [e|d] eqn:Hnew; [done|].
    assert (Hd : d = mkDate (year today) (month (b_day x)) (day (b_day x))).
    { unfold datetime.new_date in Hnew.
      repeat match type of Hnew with
             | context [if ?b then _ else _] => destruct b
             end; by inversion Hnew. }
    subst d. fold (in_window today end_date x).
    destruct (in_window today end_date x) eqn:Hw; intros Hloop Hc.
    + destruct (IH _ Hloop Hc) as [Ha|[Hin Hwin]].
      * apply elem_of_app in Ha as [Ha|Hx]; [by left|].
        apply list_elem_of_singleton in Hx as ->. right. split; [by left|done].
      * right. split; [by right|done].
    + destruct (IH _ Hloop Hc) as [Ha|[Hin Hwin]]; [by left|].
      right. split; [by right|done].
Qed.

(** X22.  When every birthday of the user can be moved to the current year
    (the stored dates are calendar dates, and the year is a leap year or no
    birthday is a 29 February), [repo_get_upcoming_birthday_contacts]
    returns, in storage order, exactly the user's contacts whose birthday in
    the current year is neither before today nor after the day seven days
    from today. *)
Theorem upcoming_birthdays_window
    (today end_date : date) (user : User) (db : list Contact) :
  valid_date today →
  datetime.add_days today 7 = inr end_date →
  (∀ c, c ∈ db → user_id c = user_pk user →
     valid_date (b_day c)
     ∧ (datetime._is_leap (year today) = true
        ∨ ¬ (month (b_day c) = 2 ∧ day (b_day c) = 29))) →
  repo_get_upcoming_birthday_contacts today user db
  = inr (List.filter (in_window today end_date)
           (List.filter (λ c, bool_decide (user_id c = user_pk user)) db)).
Proof.
  intros Htoday Hend Hok. unfold repo_get_upcoming_birthday_contacts.
  rewrite Hend. rewrite birthday_loop_ok; [done|].
  intros c [Hin Hown%bool_decide_eq_true]%list_elem_of_In%filter_In.
  apply list_elem_of_In in Hin. destruct (Hok c Hin Hown). by apply projection_ok.
Qed.

(** X23.  A contact that [repo_get_upcoming_birthday_contacts] returns is a
    contact of the user whose birthday, as month and day, is not before
    today's month and day: the birthday is compared within the current year
    only, so in the last week of December no birthday of early January is
    returned. *)
Theorem upcoming_birthdays_same_year
    (today : date) (user : User) (db result : list Contact) (c : Contact) :
  repo_get_upcoming_birthday_contacts today user db = inr result →
  c ∈ result →
  c ∈ db ∧ user_id c = user_pk user
  ∧ (month today < month (b_day c)
     ∨ (month today = month (b_day c) ∧ day today ≤ day (b_day c))).
Proof.
  unfold repo_get_upcoming_birthday_contacts.
  destruct (datetime.add_days today 7) as [e|end_date]; [done|].
  intros Hloop Hc.
  destruct (birthday_loop_sound _ _ _ _ _ _ Hloop Hc) as [Hnil|[Hin Hw]];
    [by apply elem_of_nil in Hnil|].
  apply list_elem_of_In, filter_In in Hin as [Hin Hown%bool_decide_eq_true].
  split; [by apply list_elem_of_In|]. split; [done|].
  unfold in_window, datetime.date_le in Hw. cbn [year month day] in Hw.
  apply andb_true_iff in Hw as [Hle _].
  rewrite Z.ltb_irrefl, Z.eqb_refl in Hle. cbn in Hle.
  apply orb_true_iff in Hle as [Hlt%Z.ltb_lt|Heq]; [by left|].
  apply andb_true_iff in Heq as [Hm%Z.eqb_eq Hd%Z.leb_le]. by right.
Qed.

Definition new_year_baby : Contact :=
  mkContact 11 "Jan" "Two" "jan@two.org" "555-0104" (mkDate 1990 1 2) None 1.

Lemma upcoming_birthdays_window_witness :
  repo_get_upcoming_birthday_contacts (mkDate 2024 2 25) alice [john; axel; leap_baby]
  = inr (List.filter (in_window (mkDate 2024 2 25) (mkDate 2024 3 3))
           (List.filter (λ c, bool_decide (user_id c = user_pk alice))
                        [john; axel; leap_baby])).
Proof.
  apply (upcoming_birthdays_window (mkDate 2024 2 25) (mkDate 2024 3 3) alice
           [john; axel; leap_baby]).
  - by vm_compute.
  - by vm_compute.
  - intros c Hc Hown. split.
    + repeat (apply elem_of_cons in Hc as [->|Hc]); [by vm_compute..|].
      by apply elem_of_nil in Hc.
    + by left.
Defined.

Lemma upcoming_birthdays_same_year_witness :
  axel ∈ [john; axel; leap_baby] ∧ user_id axel = user_pk alice
  ∧ (month (mkDate 2024 2 25) < month (b_day axel)
     ∨ (month (mkDate 2024 2 25) = month (b_day axel)
        ∧ day (mkDate 2024 2 25) ≤ day (b_day axel))).
Proof.
  apply (upcoming_birthdays_same_year (mkDate 2024 2 25) alice
           [john; axel; leap_baby] [axel; leap_baby] axel).
  - by vm_compute.
  - by left.
Defined.

(** On 28 December 2023 the birthday of 2 January, five days ahead, is not
    in the answer. *)
Example new_year_birthday_missed :
  datetime.add_days (mkDate 2023 12 28) 7 = inr (mkDate 2024 1 4)
  ∧ repo_get_upcoming_birthday_contacts (mkDate 2023 12 28) alice [axel; new_year_baby]
    = inr [].
Proof. by vm_compute. Qed.

End birthdays_more.
